(** * connector.py: a code-search query and its result projector

    The script builds one search request (a percent-encoded free-text term
    and two qualifiers), iterates over the match records the remote service
    yields, parses the content of each record as JSON and prints four
    lines.

    The development embeds the script together with the behaviour of the
    library calls it makes: [urllib.parse.quote] (and [unquote], its
    inverse), [json.loads] on [bytes], subscript on the parsed value,
    f-string formatting and [print].  The library functions follow the
    CPython sources ([Lib/urllib/parse.py], [Lib/json/decoder.py],
    [Lib/json/scanner.py], the UTF-8 codec).

    What lies outside the script is an input of the run or a parameter:
    - the search client [g] is a function from the request to what the
      call returns, a lazy sequence that can fail while it is iterated;
      the constructor of the client raises nothing.  The fields of a match
      record are present in the search response, except its content, which
      is fetched when first read, a read that can fail;
    - standard output is a UTF-8 text stream with the [strict] error
      handler, the interpreter's default: writing a text with a lone
      surrogate raises [UnicodeEncodeError] and writes nothing of it;
    - the limits the interpreter puts on [json.loads], the nesting its
      recursion guard allows and the digits of an integer literal, are
      the fields of [limits];
    - the printed form of a float, the table of printable characters and
      the decoders of UTF-16 and UTF-32 are fields of [runtime]. *)

From Stdlib Require Import NArith ZArith List String Ascii Bool Lia DecimalString.
Import ListNotations.

Local Open Scope N_scope.

(** ** Python strings, bytes and exceptions *)

(** A Python [str] is a sequence of code points (lone surrogates included),
    a [bytes] object a sequence of integers below 256. *)
Definition pystr := list N.
Definition bytes := list N.

(** The code points of an ASCII literal of the script. *)
Definition lit (s : string) : pystr :=
  map N_of_ascii (list_ascii_of_string s).

Definition pystr_eqb (a b : pystr) : bool :=
  if list_eq_dec N.eq_dec a b then true else false.

(** The exceptions that can reach the process boundary.  [ServiceError]
    stands for whatever the search client raises (bad credentials, rate
    limit, transport), tagged by the HTTP status or 0. *)
Inductive exn : Type :=
  | UnicodeEncodeError
  | UnicodeDecodeError
  | JSONDecodeError
  | KeyError (key : pystr)
  | TypeError
  | RecursionError
  | ValueError
  | ServiceError (status : N).

Inductive result (A : Type) : Type :=
  | Ok (a : A)
  | Raise (e : exn).
Arguments Ok {A} a.
Arguments Raise {A} e.

Definition rbind {A B} (r : result A) (k : A -> result B) : result B :=
  match r with
  | Ok a => k a
  | Raise e => Raise e
  end.

Definition rmap {A B} (f : A -> B) (r : result A) : result B :=
  rbind r (fun a => Ok (f a)).

(** ** UTF-8, as the [str.encode] and [bytes.decode] codecs do it *)

Definition is_surrogate (c : N) : bool := (0xD800 <=? c) && (c <=? 0xDFFF).

(** [chr(c).encode('utf-8', 'strict')]: surrogates are refused. *)
Definition utf8_encode_cp (c : N) : result bytes :=
  if c <? 0x80 then Ok [c]
  else if c <? 0x800 then Ok [0xC0 + c / 64; 0x80 + c mod 64]
  else if c <? 0x10000 then
    if is_surrogate c then Raise UnicodeEncodeError
    else Ok [0xE0 + c / 4096; 0x80 + (c / 64) mod 64; 0x80 + c mod 64]
  else if c <? 0x110000 then
    Ok [0xF0 + c / 262144; 0x80 + (c / 4096) mod 64;
        0x80 + (c / 64) mod 64; 0x80 + c mod 64]
  else Raise UnicodeEncodeError.

Fixpoint utf8_encode (s : pystr) : result bytes :=
  match s with
  | [] => Ok []
  | c :: t =>
      rbind (utf8_encode_cp c) (fun bs =>
      rbind (utf8_encode t) (fun rest => Ok (bs ++ rest)))
  end.

(** The error handlers the program's library calls use. *)
Inductive errors_mode := Strict | Replace | SurrogatePass.

Definition is_cont (b : N) : bool := (0x80 <=? b) && (b <? 0xC0).

(** What the decoder does with an ill-formed subsequence: ['replace']
    substitutes U+FFFD and resumes after it, the other handlers raise. *)
Definition ill_formed (m : errors_mode) (resume : result pystr) : result pystr :=
  match m with
  | Replace => rmap (cons 0xFFFD) resume
  | _ => Raise UnicodeDecodeError
  end.

(** The range of a second byte after the lead byte [b0] of a three-byte
    sequence; ['surrogatepass'] also admits the encodings of surrogates. *)
Definition second_of_3 (m : errors_mode) (b0 b1 : N) : bool :=
  is_cont b1 &&
  (if b0 =? 0xE0 then 0xA0 <=? b1
   else if b0 =? 0xED then
     match m with SurrogatePass => true | _ => b1 <? 0xA0 end
   else true).

Definition second_of_4 (b0 b1 : N) : bool :=
  is_cont b1 &&
  (if b0 =? 0xF0 then 0x90 <=? b1
   else if b0 =? 0xF4 then b1 <? 0x90
   else true).

Fixpoint utf8_decode (m : errors_mode) (bs : bytes) : result pystr :=
  match bs with
  | [] => Ok []
  | b0 :: t0 =>
    if b0 <? 0x80 then rmap (cons b0) (utf8_decode m t0)
    else if b0 <? 0xC2 then ill_formed m (utf8_decode m t0)
    else if b0 <? 0xE0 then
      match t0 with
      | [] => ill_formed m (Ok [])
      | b1 :: t1 =>
        if is_cont b1
        then rmap (cons ((b0 - 0xC0) * 64 + (b1 - 0x80))) (utf8_decode m t1)
        else ill_formed m (utf8_decode m t0)
      end
    else if b0 <? 0xF0 then
      match t0 with
      | [] => ill_formed m (Ok [])
      | b1 :: t1 =>
        if second_of_3 m b0 b1 then
          match t1 with
          | [] => ill_formed m (Ok [])
          | b2 :: t2 =>
            if is_cont b2
            then rmap (cons ((b0 - 0xE0) * 4096 + (b1 - 0x80) * 64 + (b2 - 0x80)))
                      (utf8_decode m t2)
            else ill_formed m (utf8_decode m t1)
          end
        else ill_formed m (utf8_decode m t0)
      end
    else if b0 <? 0xF5 then
      match t0 with
      | [] => ill_formed m (Ok [])
      | b1 :: t1 =>
        if second_of_4 b0 b1 then
          match t1 with
          | [] => ill_formed m (Ok [])
          | b2 :: t2 =>
            if is_cont b2 then
              match t2 with
              | [] => ill_formed m (Ok [])
              | b3 :: t3 =>
                if is_cont b3
                then rmap (cons ((b0 - 0xF0) * 262144 + (b1 - 0x80) * 4096
                                 + (b2 - 0x80) * 64 + (b3 - 0x80)))
                          (utf8_decode m t3)
                else ill_formed m (utf8_decode m t2)
              end
            else ill_formed m (utf8_decode m t1)
          end
        else ill_formed m (utf8_decode m t0)
      end
    else ill_formed m (utf8_decode m t0)
  end.

(** ** [urllib.parse.quote] and its inverse *)

(** [_ALWAYS_SAFE]: ASCII letters, digits and [_.-~]. *)
Definition always_safe (b : N) : bool :=
  ((0x41 <=? b) && (b <=? 0x5A)) || ((0x61 <=? b) && (b <=? 0x7A))
  || ((0x30 <=? b) && (b <=? 0x39))
  || (b =? 0x5F) || (b =? 0x2E) || (b =? 0x2D) || (b =? 0x7E).

(** The script calls [quote] with its default [safe='/']. *)
Definition default_safe : bytes := [0x2F].

Definition is_safe (safe : bytes) (b : N) : bool :=
  always_safe b || existsb (N.eqb b) safe.

Definition hexdig_upper (d : N) : N :=
  if d <? 10 then 0x30 + d else 0x41 + (d - 10).

(** ['%{:02X}'.format(b)]: the escape of byte [b]. *)
Definition percent (b : N) : pystr :=
  [0x25; hexdig_upper (b / 16); hexdig_upper (b mod 16)].

(** [_Quoter.__missing__]: [chr(b)] or the escape of [b]. *)
Definition quoter (safe : bytes) (b : N) : pystr :=
  if is_safe safe b then [b] else percent b.

(** [quote_from_bytes]: input made of safe bytes only is decoded as it is,
    anything else goes through the quoter byte by byte. *)
Definition quote_from_bytes (safe : bytes) (bs : bytes) : result pystr :=
  match bs with
  | [] => Ok []
  | _ =>
    if forallb (is_safe safe) bs then utf8_decode Strict bs
    else Ok (flat_map (quoter safe) bs)
  end.

(** [quote(string)] on a [str]: UTF-8 with ['strict'] errors, then
    [quote_from_bytes]. *)
Definition quote (s : pystr) : result pystr :=
  match s with
  | [] => Ok []
  | _ => rbind (utf8_encode s) (quote_from_bytes default_safe)
  end.

Definition hexval (c : N) : option N :=
  if (0x30 <=? c) && (c <=? 0x39) then Some (c - 0x30)
  else if (0x41 <=? c) && (c <=? 0x46) then Some (c - 0x41 + 10)
  else if (0x61 <=? c) && (c <=? 0x66) then Some (c - 0x61 + 10)
  else None.

(** [_unquote_impl]: every [%] followed by two hex digits becomes the byte
    they denote; any other [%] stays. *)
Fixpoint unquote_to_bytes (bs : bytes) : bytes :=
  match bs with
  | [] => []
  | c :: t =>
    if c =? 0x25 then
      match t with
      | a :: b :: r =>
        match hexval a, hexval b with
        | Some h, Some l => (16 * h + l) :: unquote_to_bytes r
        | _, _ => c :: unquote_to_bytes t
        end
      | _ => c :: unquote_to_bytes t
      end
    else c :: unquote_to_bytes t
  end.

(** One maximal ASCII run of [unquote]'s input, unquoted and decoded with
    ['replace'] errors. *)
Definition unquote_run (run : pystr) : result pystr :=
  utf8_decode Replace (unquote_to_bytes run).

(** [_generate_unquoted_parts]: ASCII runs are unquoted, what lies between
    them is copied.  [run] is the current run, last character first. *)
Fixpoint unquote_parts (run : pystr) (s : pystr) : result pystr :=
  match s with
  | [] => unquote_run (rev run)
  | c :: t =>
    if c <? 0x80 then unquote_parts (c :: run) t
    else
      rbind (unquote_run (rev run)) (fun u =>
      rbind (unquote_parts [] t) (fun rest => Ok (u ++ c :: rest)))
  end.

(** [urllib.parse.unquote], the decoding that undoes [quote]. *)
Definition unquote (s : pystr) : result pystr :=
  if existsb (N.eqb 0x25) s then unquote_parts [] s else Ok s.

(** The reserved characters of a URL (RFC 3986, gen-delims and
    sub-delims). *)
Definition reserved : pystr := lit ":/?#[]@!$&'()*+,;=".

Definition is_alnum (c : N) : bool :=
  ((0x41 <=? c) && (c <=? 0x5A)) || ((0x61 <=? c) && (c <=? 0x7A))
  || ((0x30 <=? c) && (c <=? 0x39)).

(** ** Python values and [json.loads] *)

(** The values [json.loads] builds.  A [dict] keeps its keys in insertion
    order and holds each key once.  A float is kept as the literal it was
    read from: its binary value plays no part in the script. *)
#[warnings="-register-all"]
Inductive value : Type :=
  | VNone
  | VBool (b : bool)
  | VInt (z : Z)
  | VFloat (lexeme : pystr)
  | VStr (s : pystr)
  | VList (items : list value)
  | VDict (pairs : list (pystr * value)).

Fixpoint dict_get (k : pystr) (d : list (pystr * value)) : option value :=
  match d with
  | [] => None
  | (k', v) :: t => if pystr_eqb k k' then Some v else dict_get k t
  end.

(** [d[k] = v]: a key already present keeps its place. *)
Fixpoint dict_set (k : pystr) (v : value) (d : list (pystr * value))
  : list (pystr * value) :=
  match d with
  | [] => [(k, v)]
  | (k', v') :: t =>
    if pystr_eqb k k' then (k', v) :: t else (k', v') :: dict_set k v t
  end.

(** [dict(pairs)]. *)
Definition dict_of_pairs (pairs : list (pystr * value)) : list (pystr * value) :=
  fold_left (fun d kv => dict_set (fst kv) (snd kv) d) pairs [].

(** What a scanning function of the decoder returns: the value read and the
    input left after it; [Bad], a [JSONDecodeError]; [Starved], the
    [RecursionError] of the recursion guard; [Overlong], the [ValueError]
    of an integer literal with more digits than the interpreter converts. *)
Inductive scan (A : Type) : Type :=
  | Scanned (a : A) (rest : pystr)
  | Bad
  | Starved
  | Overlong.
Arguments Scanned {A} a rest.
Arguments Bad {A}.
Arguments Starved {A}.
Arguments Overlong {A}.

(** A failure of a scanning function is the failure of its caller. *)
Definition then_scan {A B} (x : scan A) (k : A -> pystr -> scan B) : scan B :=
  match x with
  | Scanned a r => k a r
  | Bad => Bad
  | Starved => Starved
  | Overlong => Overlong
  end.

Definition is_ws (c : N) : bool :=
  (c =? 0x20) || (c =? 0x09) || (c =? 0x0A) || (c =? 0x0D).

(** [WHITESPACE.match(s, end).end()]. *)
Fixpoint skip_ws (s : pystr) : pystr :=
  match s with
  | c :: t => if is_ws c then skip_ws t else s
  | [] => []
  end.

Definition is_digit (c : N) : bool := (0x30 <=? c) && (c <=? 0x39).

Fixpoint span_digits (s : pystr) : pystr * pystr :=
  match s with
  | c :: t =>
    if is_digit c then let (ds, r) := span_digits t in (c :: ds, r)
    else ([], s)
  | [] => ([], [])
  end.

(** [BACKSLASH]: the one-character escapes. *)
Definition backslash (c : N) : option N :=
  if c =? 0x22 then Some 0x22
  else if c =? 0x5C then Some 0x5C
  else if c =? 0x2F then Some 0x2F
  else if c =? 0x62 then Some 0x08
  else if c =? 0x66 then Some 0x0C
  else if c =? 0x6E then Some 0x0A
  else if c =? 0x72 then Some 0x0D
  else if c =? 0x74 then Some 0x09
  else None.

(** [_decode_uXXXX] on the four characters after [\u]. *)
Definition hex4 (a b c d : N) : option N :=
  match hexval a, hexval b, hexval c, hexval d with
  | Some x, Some y, Some z, Some w => Some (((x * 16 + y) * 16 + z) * 16 + w)
  | _, _, _, _ => None
  end.

Definition is_high_surrogate (c : N) : bool := (0xD800 <=? c) && (c <=? 0xDBFF).
Definition is_low_surrogate (c : N) : bool := (0xDC00 <=? c) && (c <=? 0xDFFF).

(** [py_scanstring] in strict mode, from just after the opening quote: the
    text of the string and the input after its closing quote. *)
Fixpoint scanstring (s : pystr) : scan pystr :=
  let emit c r :=
    match r with
    | Scanned cs rest => Scanned (c :: cs) rest
    | other => other
    end in
  match s with
  | [] => Bad
  | c :: t =>
    if c =? 0x22 then Scanned [] t
    else if c =? 0x5C then
      match t with
      | [] => Bad
      | e :: t1 =>
        if e =? 0x75 then
          match t1 with
          | h1 :: h2 :: h3 :: h4 :: t5 =>
            match hex4 h1 h2 h3 h4 with
            | None => Bad
            | Some uni =>
              if is_high_surrogate uni then
                match t5 with
                | b :: u :: t7 =>
                  if (b =? 0x5C) && (u =? 0x75) then
                    match t7 with
                    | l1 :: l2 :: l3 :: l4 :: t11 =>
                      match hex4 l1 l2 l3 l4 with
                      | None => Bad
                      | Some uni2 =>
                        if is_low_surrogate uni2
                        then emit (0x10000 + ((uni - 0xD800) * 1024 + (uni2 - 0xDC00)))
                                  (scanstring t11)
                        else emit uni (scanstring t5)
                      end
                    | _ => Bad
                    end
                  else emit uni (scanstring t5)
                | _ => emit uni (scanstring t5)
                end
              else emit uni (scanstring t5)
            end
          | _ => Bad
          end
        else
          match backslash e with
          | Some ch => emit ch (scanstring t1)
          | None => Bad
          end
      end
    else if c <? 0x20 then Bad
    else emit c (scanstring t)
  end.

(** [NUMBER_RE]: the integer part, the fraction, the exponent (each empty
    when absent) and the input after the number. *)
Definition match_int (s : pystr) : option (pystr * pystr) :=
  match s with
  | c :: t =>
    if c =? 0x30 then Some ([c], t)
    else if is_digit c then let (ds, r) := span_digits t in Some (c :: ds, r)
    else None
  | [] => None
  end.

Definition match_frac (s : pystr) : pystr * pystr :=
  match s with
  | c :: t =>
    if c =? 0x2E then
      match span_digits t with
      | ([], _) => ([], s)
      | (ds, r) => (c :: ds, r)
      end
    else ([], s)
  | [] => ([], s)
  end.

Definition match_exp (s : pystr) : pystr * pystr :=
  match s with
  | c :: t =>
    if (c =? 0x65) || (c =? 0x45) then
      match t with
      | sg :: t' =>
        if (sg =? 0x2D) || (sg =? 0x2B) then
          match span_digits t' with
          | ([], _) => ([], s)
          | (ds, r) => (c :: sg :: ds, r)
          end
        else
          match span_digits t with
          | ([], _) => ([], s)
          | (ds, r) => (c :: ds, r)
          end
      | [] => ([], s)
      end
    else ([], s)
  | [] => ([], s)
  end.

Definition match_number (s : pystr) : option (pystr * pystr * pystr * pystr) :=
  let signed :=
    match s with
    | c :: t =>
      if c =? 0x2D
      then match match_int t with
           | Some (i, r) => Some (c :: i, r)
           | None => None
           end
      else match_int s
    | [] => None
    end in
  match signed with
  | None => None
  | Some (i, r) =>
    let (f, r1) := match_frac r in
    let (e, r2) := match_exp r1 in
    Some (i, f, e, r2)
  end.

(** [int(integer)] on the integer part of a number. *)
Definition digits_value (ds : pystr) : Z :=
  fold_left (fun acc c => (acc * 10 + Z.of_N (c - 0x30))%Z) ds 0%Z.

Definition parse_int (i : pystr) : Z :=
  match i with
  | c :: t => if c =? 0x2D then (- digits_value t)%Z else digits_value i
  | [] => 0%Z
  end.

(** [string[idx:idx+len(p)] == p], and the input after the prefix. *)
Fixpoint strip_prefix (p s : pystr) : option pystr :=
  match p, s with
  | [], _ => Some s
  | a :: p', b :: s' => if a =? b then strip_prefix p' s' else None
  | _ :: _, [] => None
  end.

(** The loop of [JSONArray], entered before an element; [n] bounds the
    number of elements and is never what stops the loop. *)
Fixpoint array_items (scan_once : pystr -> scan value) (n : nat) (s : pystr)
  : scan (list value) :=
  match n with
  | O => Starved
  | S n' =>
    then_scan (scan_once s) (fun v r =>
      match skip_ws r with
      | c :: r' =>
        if c =? 0x5D then Scanned [v] r'
        else if c =? 0x2C then
          then_scan (array_items scan_once n' (skip_ws r'))
                    (fun vs r'' => Scanned (v :: vs) r'')
        else Bad
      | [] => Bad
      end)
  end.

(** [JSONArray], from just after the opening bracket. *)
Definition JSONArray (scan_once : pystr -> scan value) (s : pystr) : scan value :=
  match skip_ws s with
  | c :: r =>
    if c =? 0x5D then Scanned (VList []) r
    else
      then_scan (array_items scan_once (S (List.length s)) (skip_ws s))
                (fun vs r' => Scanned (VList vs) r')
  | [] => Bad
  end.

(** The loop of [JSONObject], entered just after the opening quote of a
    key; [n] bounds the number of pairs and is never what stops the
    loop. *)
Fixpoint object_pairs (scan_once : pystr -> scan value) (n : nat) (s : pystr)
  : scan (list (pystr * value)) :=
  match n with
  | O => Starved
  | S n' =>
    then_scan (scanstring s) (fun key r =>
      match skip_ws r with
      | colon :: r1 =>
        if colon =? 0x3A then
          then_scan (scan_once (skip_ws r1)) (fun v r2 =>
            match skip_ws r2 with
            | c :: r3 =>
              if c =? 0x7D then Scanned [(key, v)] r3
              else if c =? 0x2C then
                match skip_ws r3 with
                | q :: r4 =>
                  if q =? 0x22 then
                    then_scan (object_pairs scan_once n' r4)
                              (fun kvs r5 => Scanned ((key, v) :: kvs) r5)
                  else Bad
                | [] => Bad
                end
              else Bad
            | [] => Bad
            end)
        else Bad
      | [] => Bad
      end)
  end.

(** [JSONObject], from just after the opening brace. *)
Definition JSONObject (scan_once : pystr -> scan value) (s : pystr) : scan value :=
  match skip_ws s with
  | c :: r =>
    if c =? 0x7D then Scanned (VDict []) r
    else if c =? 0x22 then
      then_scan (object_pairs scan_once (S (List.length s)) r)
                (fun kvs r' => Scanned (VDict (dict_of_pairs kvs)) r')
    else Bad
  | [] => Bad
  end.

(** [int(integer)] converts a literal of more than 640 digits only up to
    the interpreter's limit, when one is set ([0] is no limit). *)
Definition too_many_digits (max_digits : nat) (i : pystr) : bool :=
  let digits :=
    match i with
    | c :: t => if c =? 0x2D then List.length t else List.length i
    | [] => O
    end in
  (Nat.ltb 640 digits && Nat.ltb 0 max_digits && Nat.ltb max_digits digits)%bool.

Section Scanner.

(** Whether [parse_constant] takes [NaN], [Infinity] and [-Infinity], as
    it does unless the caller replaces it, and the digit limit of [int]. *)
Variable constants : bool.
Variable max_digits : nat.

(** [_scan_once]; [StopIteration] is turned into [JSONDecodeError] by every
    caller, so both are [Bad].  [depth] is how many containers the
    recursion guard still lets the scanner enter. *)
Fixpoint scan_once (depth : nat) (s : pystr) {struct depth} : scan value :=
  match s with
  | [] => Bad
  | c :: t =>
    if c =? 0x22 then
      then_scan (scanstring t) (fun str r => Scanned (VStr str) r)
    else if c =? 0x7B then
      match depth with
      | O => Starved
      | S depth' => JSONObject (scan_once depth') t
      end
    else if c =? 0x5B then
      match depth with
      | O => Starved
      | S depth' => JSONArray (scan_once depth') t
      end
    else
      match strip_prefix (lit "null") s with
      | Some r => Scanned VNone r
      | None =>
      match strip_prefix (lit "true") s with
      | Some r => Scanned (VBool true) r
      | None =>
      match strip_prefix (lit "false") s with
      | Some r => Scanned (VBool false) r
      | None =>
      match match_number s with
      | Some (i, f, e, r) =>
        match f, e with
        | [], [] =>
          if too_many_digits max_digits i then Overlong
          else Scanned (VInt (parse_int i)) r
        | _, _ => Scanned (VFloat (i ++ f ++ e)) r
        end
      | None =>
        if constants then
          match strip_prefix (lit "NaN") s with
          | Some r => Scanned (VFloat (lit "NaN")) r
          | None =>
          match strip_prefix (lit "Infinity") s with
          | Some r => Scanned (VFloat (lit "Infinity")) r
          | None =>
          match strip_prefix (lit "-Infinity") s with
          | Some r => Scanned (VFloat (lit "-Infinity")) r
          | None => Bad
          end end end
        else Bad
      end end end end
  end.

(** [JSONDecoder.decode]: one value between optional whitespace, and
    nothing after it. *)
Definition decode_within (depth : nat) (s : pystr) : scan value :=
  then_scan (scan_once depth (skip_ws s)) (fun v r =>
    match skip_ws r with
    | [] => Scanned v []
    | _ :: _ => Bad
    end).

End Scanner.

(** ** From [bytes] to a parsed value *)

Inductive encoding : Type :=
  | Utf8 | Utf8Sig | Utf16 | Utf16BE | Utf16LE | Utf32 | Utf32BE | Utf32LE.

(** What the interpreter and its Unicode tables supply and the script does
    not depend on: the printed form of a float read from a literal (ASCII
    text), which non-ASCII characters count as printable, and the decoders
    of the wide encodings ([None] is their [UnicodeDecodeError]). *)
Record runtime : Type := {
  float_repr : pystr -> string;
  isprintable : N -> bool;
  wide_decode : encoding -> bytes -> option pystr
}.

(** The limits of the interpreter that bear on [json.loads] at line 22.
    The recursion guard lets it nest [nesting_limit] containers: two, as
    the script's use takes, in any interpreter that runs it, and
    [spare_depth] more (under the default recursion limit, a little less
    than a thousand in all).  [int_max_str_digits] is the setting of that
    name, [0] when the limit is off. *)
Record limits : Type := {
  spare_depth : nat;
  int_max_str_digits : nat
}.

Definition nesting_limit (lim : limits) : nat := 2 + spare_depth lim.

Definition starts_with (p b : bytes) : bool :=
  match strip_prefix p b with Some _ => true | None => false end.

(** [json.detect_encoding]. *)
Definition detect_encoding (b : bytes) : encoding :=
  if starts_with [0; 0; 0xFE; 0xFF] b || starts_with [0xFF; 0xFE; 0; 0] b
  then Utf32
  else if starts_with [0xFE; 0xFF] b || starts_with [0xFF; 0xFE] b then Utf16
  else if starts_with [0xEF; 0xBB; 0xBF] b then Utf8Sig
  else
    match b with
    | b0 :: b1 :: b2 :: b3 :: _ =>
      if b0 =? 0 then (if b1 =? 0 then Utf32BE else Utf16BE)
      else if b1 =? 0 then (if (b2 =? 0) && (b3 =? 0) then Utf32LE else Utf16LE)
      else Utf8
    | [b0; b1] =>
      if b0 =? 0 then Utf16BE else if b1 =? 0 then Utf16LE else Utf8
    | _ => Utf8
    end.

(** [b.decode(enc, 'surrogatepass')]. *)
Definition bytes_decode (rt : runtime) (enc : encoding) (b : bytes) : result pystr :=
  match enc with
  | Utf8 => utf8_decode SurrogatePass b
  | Utf8Sig =>
    match strip_prefix [0xEF; 0xBB; 0xBF] b with
    | Some r => utf8_decode SurrogatePass r
    | None => utf8_decode SurrogatePass b
    end
  | _ =>
    match wide_decode rt enc b with
    | Some s => Ok s
    | None => Raise UnicodeDecodeError
    end
  end.

(** [JSONDecoder.decode] as the script's interpreter runs it: the three
    constants are taken, the limits are the interpreter's. *)
Definition decode (lim : limits) (s : pystr) : scan value :=
  decode_within true (int_max_str_digits lim) (nesting_limit lim) s.

(** What [json.loads] returns or raises once the text is decoded. *)
Definition loads_text (lim : limits) (s : pystr) : result value :=
  match decode lim s with
  | Scanned v _ => Ok v
  | Bad => Raise JSONDecodeError
  | Starved => Raise RecursionError
  | Overlong => Raise ValueError
  end.

(** [json.loads] on a [bytes] argument. *)
Definition json_loads (lim : limits) (rt : runtime) (b : bytes) : result value :=
  rbind (bytes_decode rt (detect_encoding b) b) (loads_text lim).

(** [obj[key]] with a [str] key: only a [dict] can be subscripted by it. *)
Definition getitem (obj : value) (key : pystr) : result value :=
  match obj with
  | VDict d =>
    match dict_get key d with
    | Some v => Ok v
    | None => Raise (KeyError key)
    end
  | _ => Raise TypeError
  end.

(** ** [str()] and [repr()] of a parsed value *)

(** On the values line 22 hands to the f-string these conversions raise
    nothing: an integer [json.loads] returned has no more digits than
    [str] converts, and a value found under two keys of what it returned
    is nested less deeply than the recursion guard allowed the parser. *)

Definition int_str (z : Z) : pystr :=
  lit (DecimalString.NilZero.string_of_int (Z.to_int z)).

Definition hex_lower (d : N) : N :=
  if d <? 10 then 0x30 + d else 0x61 + (d - 10).

Fixpoint hex_fixed (width : nat) (c : N) : pystr :=
  match width with
  | O => []
  | S w => hex_fixed w (c / 16) ++ [hex_lower (c mod 16)]
  end.

(** One character of the [repr] of a [str] quoted with [q].  A surrogate
    is never printable, whatever the table says of other characters. *)
Definition repr_char (rt : runtime) (q c : N) : pystr :=
  if (c =? q) || (c =? 0x5C) then [0x5C; c]
  else if c =? 0x09 then lit "\t"
  else if c =? 0x0A then lit "\n"
  else if c =? 0x0D then lit "\r"
  else if (c <? 0x20) || (c =? 0x7F) then lit "\x" ++ hex_fixed 2 c
  else if c <? 0x7F then [c]
  else if isprintable rt c && (c <? 0x110000) && negb (is_surrogate c) then [c]
  else if c <=? 0xFF then lit "\x" ++ hex_fixed 2 c
  else if c <=? 0xFFFF then lit "\u" ++ hex_fixed 4 c
  else lit "\U" ++ hex_fixed 8 c.

(** [repr] of a [str]: single quotes unless the text has a single quote and
    no double quote. *)
Definition repr_str (rt : runtime) (s : pystr) : pystr :=
  let q := if existsb (N.eqb 0x27) s && negb (existsb (N.eqb 0x22) s)
           then 0x22 else 0x27 in
  q :: flat_map (repr_char rt q) s ++ [q].

Fixpoint join (sep : pystr) (parts : list pystr) : pystr :=
  match parts with
  | [] => []
  | [p] => p
  | p :: rest => p ++ sep ++ join sep rest
  end.

Fixpoint py_repr (rt : runtime) (v : value) : pystr :=
  match v with
  | VNone => lit "None"
  | VBool true => lit "True"
  | VBool false => lit "False"
  | VInt z => int_str z
  | VFloat l => lit (float_repr rt l)
  | VStr s => repr_str rt s
  | VList items =>
    lit "[" ++ join (lit ", ") (map (py_repr rt) items) ++ lit "]"
  | VDict pairs =>
    lit "{"
    ++ join (lit ", ")
            (map (fun kv => repr_str rt (fst kv) ++ lit ": " ++ py_repr rt (snd kv))
                 pairs)
    ++ lit "}"
  end.

(** [str(v)], which is also what an f-string field without a format
    specification inserts. *)
Definition py_str (rt : runtime) (v : value) : pystr :=
  match v with
  | VStr s => s
  | _ => py_repr rt v
  end.

(** ** The search client and the process *)

(** The keyword arguments of [search_code]; the qualifiers keep the order
    of the dict they are unpacked from. *)
Record SearchRequest : Type := {
  rq_query : pystr;
  rq_sort : pystr;
  rq_order : pystr;
  rq_highlight : bool;
  rq_qualifiers : list (pystr * pystr)
}.

Record Repository : Type := { full_name : pystr }.

(** A match record; its content is fetched when first read, which can
    fail. *)
Record MatchRecord : Type := {
  repository : Repository;
  path : pystr;
  html_url : pystr;
  decoded_content : result bytes
}.

(** The lazy sequence a search returns: it ends, yields a record, or
    raises while the next page is fetched. *)
Inductive results : Type :=
  | Exhausted
  | Yield (r : MatchRecord) (rest : results)
  | Fails (e : exn).

(** The remote service as the client [g] presents it. *)
Definition service := SearchRequest -> result results.

(** What a run leaves behind: the text on standard output and the search
    calls made, oldest first. *)
Record process : Type := {
  stdout : pystr;
  requests : list SearchRequest
}.

Definition prog (A : Type) : Type := process -> result A * process.

Definition ret {A} (a : A) : prog A := fun p => (Ok a, p).

Definition bind {A B} (c : prog A) (k : A -> prog B) : prog B :=
  fun p =>
    match c p with
    | (Ok a, p') => k a p'
    | (Raise e, p') => (Raise e, p')
    end.

Definition lift {A} (r : result A) : prog A := fun p => (r, p).

Notation "x <- c ;; k" := (bind c (fun x => k))
  (at level 61, c at next level, right associativity).
Notation "c ;; k" := (bind c (fun _ => k))
  (at level 61, right associativity).

(** [print(s)]: the text, then a newline, written to standard output.
    The stream encodes what it is given: a text with a lone surrogate
    raises [UnicodeEncodeError] and nothing of it is written. *)
Definition print (s : pystr) : prog unit :=
  fun p =>
    match utf8_encode s with
    | Ok _ =>
      (Ok tt, {| stdout := stdout p ++ s ++ [0x0A]; requests := requests p |})
    | Raise e => (Raise e, p)
    end.

(** [g.search_code(...)]: the call is recorded, its outcome is the
    service's. *)
Definition search_code (g : service) (rq : SearchRequest) : prog results :=
  fun p => (g rq, {| stdout := stdout p; requests := requests p ++ [rq] |}).

(** ** The script *)

(** Lines 9 and 10. *)
Definition query : pystr := lit "angular".
Definition encoded_query : result pystr := quote query.

(** Lines 12 to 15. *)
Definition qualifiers : list (pystr * pystr) :=
  [ (lit "filename", lit "package.json");
    (lit "repo", lit "gothinkster/angularjs-realworld-example-app") ].

(** Lines 22 to 27, the body of the result loop. *)
Definition project (lim : limits) (rt : runtime) (result : MatchRecord)
  : prog unit :=
  content <- lift (decoded_content result) ;;
  parsed <- lift (json_loads lim rt content) ;;
  dependencies <- lift (getitem parsed (lit "dependencies")) ;;
  angular_js_version <- lift (getitem dependencies (lit "angular")) ;;
  print (lit "Repository: " ++ full_name (repository result)) ;;
  print (lit "File path: " ++ path result) ;;
  print (lit "URL: " ++ html_url result) ;;
  print (lit "Angular JS: " ++ py_str rt angular_js_version).

(** Lines 21 to 27: the loop over the lazy sequence.  Nothing is caught:
    an exception of the iteration or of the body ends the loop. *)
Fixpoint for_each (rs : results) (body : MatchRecord -> prog unit) : prog unit :=
  match rs with
  | Exhausted => ret tt
  | Fails e => lift (Raise e)
  | Yield r rest => body r ;; for_each rest body
  end.

(** Lines 10 to 27 for any free-text term in the place of [query]: the
    term is encoded, the encoded form is the [query] argument of the one
    call of [search_code], and the loop runs over what the call returns. *)
Definition script (lim : limits) (rt : runtime) (g : service) (term : pystr)
  : prog unit :=
  encoded <- lift (quote term) ;;
  found <- search_code g {| rq_query := encoded;
                            rq_sort := lit "indexed";
                            rq_order := lit "asc";
                            rq_highlight := true;
                            rq_qualifiers := qualifiers |} ;;
  for_each found (project lim rt).

(** connector.py: the script with its own term. *)
Definition connector (lim : limits) (rt : runtime) (g : service) : prog unit :=
  script lim rt g query.

Definition run (lim : limits) (rt : runtime) (g : service)
  : result unit * process :=
  connector lim rt g {| stdout := []; requests := [] |}.

(** The exit status of the interpreter: 1 after an uncaught exception. *)
Definition exit_code (r : result unit) : Z :=
  match r with
  | Ok _ => 0%Z
  | Raise _ => 1%Z
  end.

(** The text [n] calls of [print] leave on standard output. *)
Definition unlines (ls : list pystr) : pystr :=
  flat_map (fun l => l ++ [0x0A]) ls.

(** ** Vocabulary of the statements *)

(** A Unicode scalar value: a code point that is not a surrogate. *)
Definition scalar (c : N) : Prop := c < 0x110000 /\ is_surrogate c = false.

Definition is_byte (b : N) : Prop := b < 256.

Definition is_ascii (c : N) : Prop := c < 0x80.

(** A scanning function consumes input whenever it succeeds. *)
Definition progresses {A} (sc : pystr -> scan A) : Prop :=
  forall s a r, sc s = Scanned a r -> (List.length r < List.length s)%nat.

(** A scanning function is not stopped by the recursion guard on inputs
    shorter than [bound]. *)
Definition fed {A} (bound : nat) (sc : pystr -> scan A) : Prop :=
  forall s, (List.length s < bound)%nat -> sc s <> Starved.

(** What line 22 of the script evaluates to on a record. *)
Definition version_of (lim : limits) (rt : runtime) (r : MatchRecord)
  : result value :=
  rbind (decoded_content r) (fun content =>
  rbind (json_loads lim rt content) (fun parsed =>
  rbind (getitem parsed (lit "dependencies")) (fun dependencies =>
  getitem dependencies (lit "angular")))).

(** The four lines of a record, given the text of its version. *)
Definition four_lines (r : MatchRecord) (version : pystr) : list pystr :=
  [ lit "Repository: " ++ full_name (repository r);
    lit "File path: " ++ path r;
    lit "URL: " ++ html_url r;
    lit "Angular JS: " ++ version ].

(** A text standard output can encode: no lone surrogate in it. *)
Definition writable (s : pystr) : Prop := Forall scalar s.

Definition writable_b (s : pystr) : bool :=
  forallb (fun c => (c <? 0x110000) && negb (is_surrogate c)) s.

(** The lines that reach standard output when [lines] are printed in
    turn: those before the first one that cannot be encoded. *)
Fixpoint written (lines : list pystr) : list pystr :=
  match lines with
  | [] => []
  | l :: rest => if writable_b l then l :: written rest else []
  end.

(** The output of a record that is printed in full. *)
Definition report (lim : limits) (rt : runtime) (r : MatchRecord) : pystr :=
  match version_of lim rt r with
  | Ok v => unlines (four_lines r (py_str rt v))
  | Raise _ => []
  end.

(** The record is printed in full: line 22 gives a value and each of the
    four lines can be written. *)
Definition printable (lim : limits) (rt : runtime) (r : MatchRecord) : Prop :=
  exists v, version_of lim rt r = Ok v
            /\ Forall writable (four_lines r (py_str rt v)).

(** The sequence that yields the records of [pre] and goes on as [rest]. *)
Definition yield_all (pre : list MatchRecord) (rest : results) : results :=
  fold_right Yield rest pre.

(** The search call of the script, for an encoded term. *)
Definition sent_request (encoded : pystr) : SearchRequest :=
  {| rq_query := encoded;
     rq_sort := lit "indexed";
     rq_order := lit "asc";
     rq_highlight := true;
     rq_qualifiers := qualifiers |}.

(** A text of the JSON grammar (RFC 8259): what the decoder reads when its
    [parse_constant] hook refuses [NaN], [Infinity] and [-Infinity], the
    documented way to hold it to the grammar, and no limit of the
    interpreter is in the way. *)
Definition json_grammar (s : pystr) : bool :=
  match decode_within false 0 (List.length s) s with
  | Scanned _ _ => true
  | _ => false
  end.

(** Valid JSON content: UTF-8 text of the JSON grammar. *)
Definition valid_json (content : bytes) : Prop :=
  exists s, utf8_decode Strict content = Ok s /\ json_grammar s = true.

(** The errors of [json.loads] on its input: the parse errors proper (the
    text cannot be decoded, or it is not what the decoder reads), and the
    errors of the interpreter's limits. *)
Definition parse_error (e : exn) : Prop :=
  e = JSONDecodeError \/ e = UnicodeDecodeError.

Definition load_error (e : exn) : Prop :=
  parse_error e \/ e = RecursionError \/ e = ValueError.

(** Where a run can fail once the term is encoded, with the text on
    standard output at that point: in the search call, while the next
    record is fetched, on line 22 of the body, or in one of its four
    prints, after the lines before it are written. *)
Inductive fails_after (lim : limits) (rt : runtime)
  : result results -> pystr -> exn -> Prop :=
  | search_fails e :
      fails_after lim rt (Raise e) [] e
  | iteration_fails pre e :
      Forall (printable lim rt) pre ->
      fails_after lim rt (Ok (yield_all pre (Fails e)))
                  (flat_map (report lim rt) pre) e
  | record_fails pre r post e :
      Forall (printable lim rt) pre ->
      version_of lim rt r = Raise e ->
      fails_after lim rt (Ok (yield_all pre (Yield r post)))
                  (flat_map (report lim rt) pre) e
  | print_fails pre r post v :
      Forall (printable lim rt) pre ->
      version_of lim rt r = Ok v ->
      forallb writable_b (four_lines r (py_str rt v)) = false ->
      fails_after lim rt (Ok (yield_all pre (Yield r post)))
                  (flat_map (report lim rt) pre
                   ++ unlines (written (four_lines r (py_str rt v))))
                  UnicodeEncodeError.

(** A JSON string literal with the text of an ASCII literal. *)
Definition json_string (s : string) : pystr := [0x22] ++ lit s ++ [0x22].

(** The content of the match record of the specification's example. *)
Definition example_content : bytes :=
  lit "{" ++ json_string "dependencies" ++ lit ": {"
  ++ json_string "angular" ++ lit ": " ++ json_string "1.2.3" ++ lit "}}".

Definition example_record : MatchRecord :=
  {| repository := {| full_name := lit "owner/repo" |};
     path := lit "package.json";
     html_url := lit "https://example/owner/repo/package.json";
     decoded_content := Ok example_content |}.

(** A runtime for concrete runs: floats print as they were written, every
    non-ASCII character is printable, no wide encoding is installed. *)
Definition plain_runtime : runtime :=
  {| float_repr := fun l => string_of_list_ascii (map ascii_of_N l);
     isprintable := fun _ => true;
     wide_decode := fun _ _ => None |}.

(** Limits for concrete runs, the defaults of the interpreter: nesting up
    to a thousand containers, 4300 digits. *)
Definition default_limits : limits :=
  {| spare_depth := 998; int_max_str_digits := 4300 |}.

Definition is_str (v : value) : bool :=
  match v with VStr _ => true | _ => false end.

(** ** Vocabulary of the further properties *)

Definition is_dict (v : value) : bool :=
  match v with VDict _ => true | _ => false end.

(** The value the last pair with key [k] binds, as [dict(pairs)] keeps
    it. *)
Definition last_binding (k : pystr) (pairs : list (pystr * value)) : option value :=
  fold_left (fun found kv => if pystr_eqb k (fst kv) then Some (snd kv) else found)
            pairs None.

(** A character that stands for itself inside a JSON string and is one
    byte of UTF-8: ASCII, not a control character, a quote or a
    backslash. *)
Definition plain_char (c : N) : Prop :=
  0x20 <= c < 0x80 /\ c <> 0x22 /\ c <> 0x5C.

(** The text [{"dependencies": {"angular": "<version>"}}]. *)
Definition version_content (version : pystr) : bytes :=
  lit "{" ++ json_string "dependencies" ++ lit ": {"
  ++ json_string "angular" ++ lit ": " ++ [0x22] ++ version ++ [0x22] ++ lit "}}".

(** A byte of ASCII text: not NUL, below 128. *)
Definition text_byte (b : N) : Prop := 0 < b < 0x80.

(** [y] is what [x] reads, unless a limit of the interpreter stops it. *)
Definition up_to_limits {A} (x y : scan A) : Prop :=
  forall a r, x = Scanned a r -> y = Scanned a r \/ y = Starved \/ y = Overlong.

(** * Properties *)

(** ** Arithmetic of code points and bytes *)

Ltac divmod := zify; Z.to_euclidean_division_equations; lia.

(** Case analysis on every comparison of the goal, closing the branches the
    context contradicts. *)
Ltac cmp_cases :=
  repeat match goal with
  | |- context [?a <? ?b] => destruct (N.ltb_spec a b); try (exfalso; divmod)
  | |- context [?a <=? ?b] => destruct (N.leb_spec a b); try (exfalso; divmod)
  | |- context [?a =? ?b] => destruct (N.eqb_spec a b); try (exfalso; divmod)
  end.

Lemma is_surrogate_false c :
  is_surrogate c = false -> c < 0xD800 \/ 0xDFFF < c.
Proof.
  unfold is_surrogate. cmp_cases; simpl; intros; try discriminate; lia.
Qed.

Lemma rmap_Ok {A B} (f : A -> B) (a : A) : rmap f (Ok a) = Ok (f a).
Proof. reflexivity. Qed.

Lemma Ok_inj {A} (a b : A) : Ok a = Ok b -> a = b.
Proof. congruence. Qed.

(** [Ok a = Ok b] in the goal's premise, without touching the arithmetic
    inside. *)
Ltac ok_subst := let E := fresh in intros E; apply Ok_inj in E; subst.

(** ** UTF-8: decoding undoes encoding *)

Lemma decode_1 m b t :
  b < 0x80 -> utf8_decode m (b :: t) = rmap (cons b) (utf8_decode m t).
Proof. intros. cbn [utf8_decode]. cmp_cases. reflexivity. Qed.

Lemma decode_2 m b0 b1 t :
  0xC2 <= b0 < 0xE0 -> is_cont b1 = true ->
  utf8_decode m (b0 :: b1 :: t)
  = rmap (cons ((b0 - 0xC0) * 64 + (b1 - 0x80))) (utf8_decode m t).
Proof.
  intros ? C1. cbn [utf8_decode]. rewrite C1. cmp_cases. reflexivity.
Qed.

Lemma decode_3 m b0 b1 b2 t :
  0xE0 <= b0 < 0xF0 -> second_of_3 m b0 b1 = true -> is_cont b2 = true ->
  utf8_decode m (b0 :: b1 :: b2 :: t)
  = rmap (cons ((b0 - 0xE0) * 4096 + (b1 - 0x80) * 64 + (b2 - 0x80)))
         (utf8_decode m t).
Proof.
  intros ? C1 C2. cbn [utf8_decode]. rewrite C1, C2. cmp_cases. reflexivity.
Qed.

Lemma decode_4 m b0 b1 b2 b3 t :
  0xF0 <= b0 < 0xF5 -> second_of_4 b0 b1 = true ->
  is_cont b2 = true -> is_cont b3 = true ->
  utf8_decode m (b0 :: b1 :: b2 :: b3 :: t)
  = rmap (cons ((b0 - 0xF0) * 262144 + (b1 - 0x80) * 4096
                + (b2 - 0x80) * 64 + (b3 - 0x80)))
         (utf8_decode m t).
Proof.
  intros ? C1 C2 C3. cbn [utf8_decode]. rewrite C1, C2, C3. cmp_cases.
  reflexivity.
Qed.

Lemma is_cont_low6 x : is_cont (0x80 + x mod 64) = true.
Proof. unfold is_cont. cmp_cases. reflexivity. Qed.

Ltac same_cp :=
  match goal with
  | |- rmap (cons ?a) _ = rmap (cons ?c) _ => replace a with c by divmod
  end; reflexivity.

Lemma utf8_decode_encode_cp m c bs rest :
  utf8_encode_cp c = Ok bs ->
  utf8_decode m (bs ++ rest) = rmap (cons c) (utf8_decode m rest).
Proof.
  unfold utf8_encode_cp.
  destruct (N.ltb_spec c 0x80).
  { ok_subst. cbn [app]. now apply decode_1. }
  destruct (N.ltb_spec c 0x800).
  { ok_subst. cbn [app]. rewrite decode_2.
    - same_cp.
    - divmod.
    - apply is_cont_low6. }
  destruct (N.ltb_spec c 0x10000).
  { destruct (is_surrogate c) eqn:S; [discriminate|].
    apply is_surrogate_false in S.
    ok_subst. cbn [app]. rewrite decode_3.
    - same_cp.
    - divmod.
    - unfold second_of_3. rewrite is_cont_low6. cbn [andb].
      cmp_cases; try reflexivity; destruct m; cmp_cases; reflexivity.
    - apply is_cont_low6. }
  destruct (N.ltb_spec c 0x110000); [|discriminate].
  ok_subst. cbn [app]. rewrite decode_4.
  - same_cp.
  - divmod.
  - unfold second_of_4. rewrite is_cont_low6. cbn [andb].
    cmp_cases; reflexivity.
  - apply is_cont_low6.
  - apply is_cont_low6.
Qed.

Lemma utf8_decode_encode m s bs :
  utf8_encode s = Ok bs -> utf8_decode m bs = Ok s.
Proof.
  revert bs. induction s as [|c t IH]; intros bs.
  - intros [= <-]. reflexivity.
  - cbn [utf8_encode]. destruct (utf8_encode_cp c) as [b|] eqn:E; [|discriminate].
    cbn [rbind]. destruct (utf8_encode t) as [r|]; [|discriminate].
    intros [= <-]. rewrite (utf8_decode_encode_cp m c b r E).
    now rewrite (IH r eq_refl).
Qed.

Lemma utf8_encode_cp_scalar c :
  scalar c -> exists bs, utf8_encode_cp c = Ok bs.
Proof.
  intros [L S]. unfold utf8_encode_cp. rewrite S.
  cmp_cases; eexists; reflexivity.
Qed.

Lemma utf8_encode_scalar s :
  Forall scalar s -> exists bs, utf8_encode s = Ok bs.
Proof.
  induction 1 as [|c t Hc _ [r IH]].
  - now exists [].
  - destruct (utf8_encode_cp_scalar c Hc) as [b E].
    exists (b ++ r). cbn [utf8_encode]. now rewrite E, IH.
Qed.

Lemma utf8_encode_cp_bytes c bs :
  utf8_encode_cp c = Ok bs -> Forall is_byte bs.
Proof.
  unfold utf8_encode_cp, is_byte.
  destruct (N.ltb_spec c 0x80).
  { ok_subst. repeat constructor. lia. }
  destruct (N.ltb_spec c 0x800).
  { ok_subst. repeat constructor; divmod. }
  destruct (N.ltb_spec c 0x10000).
  { destruct (is_surrogate c); [discriminate|].
    ok_subst. repeat constructor; divmod. }
  destruct (N.ltb_spec c 0x110000); [|discriminate].
  ok_subst. repeat constructor; divmod.
Qed.

Lemma utf8_encode_bytes s bs :
  utf8_encode s = Ok bs -> Forall is_byte bs.
Proof.
  revert bs. induction s as [|c t IH]; intros bs.
  - intros [= <-]. constructor.
  - cbn [utf8_encode]. destruct (utf8_encode_cp c) as [b|] eqn:E; [|discriminate].
    cbn [rbind]. destruct (utf8_encode t) as [r|]; [|discriminate].
    intros [= <-]. apply Forall_app. split.
    + eapply utf8_encode_cp_bytes; eassumption.
    + now apply IH.
Qed.

Lemma utf8_encode_ascii s :
  Forall is_ascii s -> utf8_encode s = Ok s.
Proof.
  induction 1 as [|c t Hc _ IH]; [reflexivity|].
  cbn [utf8_encode]. unfold utf8_encode_cp. unfold is_ascii in Hc.
  destruct (N.ltb_spec c 0x80); [|lia]. cbn [rbind]. now rewrite IH.
Qed.

Lemma utf8_decode_ascii m s :
  Forall is_ascii s -> utf8_decode m s = Ok s.
Proof.
  intros H. apply utf8_decode_encode. now apply utf8_encode_ascii.
Qed.

Lemma ascii_scalar c : is_ascii c -> scalar c.
Proof.
  unfold is_ascii, scalar, is_surrogate. intros. split; [lia|].
  cmp_cases; reflexivity.
Qed.

(** ** [quote]: what it leaves, what it escapes, and how it is undone *)

Lemma is_safe_ascii b :
  is_safe default_safe b = true -> is_ascii b /\ b <> 0x25.
Proof.
  unfold is_safe, always_safe, default_safe, existsb, is_ascii.
  cmp_cases; cbn; intros; try discriminate; split; lia.
Qed.

Lemma all_safe_ascii bs :
  forallb (is_safe default_safe) bs = true -> Forall is_ascii bs.
Proof.
  rewrite forallb_forall. intros H. apply Forall_forall. intros b Hb.
  now apply is_safe_ascii, H.
Qed.

Lemma all_safe_no_percent bs :
  forallb (is_safe default_safe) bs = true -> existsb (N.eqb 0x25) bs = false.
Proof.
  induction bs as [|b t IH]; [reflexivity|].
  cbn [forallb existsb]. intros [Hb Ht]%andb_true_iff.
  rewrite (IH Ht). apply is_safe_ascii in Hb as [_ Hb].
  destruct (N.eqb_spec 0x25 b); [congruence|reflexivity].
Qed.

Lemma quote_safe_identity x :
  forallb (is_safe default_safe) x = true -> quote x = Ok x.
Proof.
  intros H. destruct x as [|c t]; [reflexivity|].
  unfold quote. rewrite (utf8_encode_ascii _ (all_safe_ascii _ H)).
  cbn [rbind]. unfold quote_from_bytes. rewrite H.
  apply utf8_decode_ascii. now apply all_safe_ascii.
Qed.

Lemma hexval_hexdig_upper d : d < 16 -> hexval (hexdig_upper d) = Some d.
Proof.
  intros. unfold hexval, hexdig_upper.
  destruct (N.ltb_spec d 10); cmp_cases; cbn [andb]; f_equal; lia.
Qed.

Lemma hexdig_upper_ascii d : d < 16 -> is_ascii (hexdig_upper d).
Proof.
  unfold hexdig_upper, is_ascii. intros. destruct (N.ltb_spec d 10); lia.
Qed.

Lemma hexdig_upper_not_percent d : hexdig_upper d <> 0x25.
Proof. unfold hexdig_upper. destruct (N.ltb_spec d 10); lia. Qed.

Lemma unquote_to_bytes_percent b rest :
  is_byte b ->
  unquote_to_bytes (percent b ++ rest) = b :: unquote_to_bytes rest.
Proof.
  unfold is_byte, percent. intros Hb. cbn [app unquote_to_bytes].
  rewrite N.eqb_refl, !hexval_hexdig_upper by divmod.
  f_equal. divmod.
Qed.

Lemma unquote_to_bytes_other c t :
  c <> 0x25 -> unquote_to_bytes (c :: t) = c :: unquote_to_bytes t.
Proof.
  intros. cbn [unquote_to_bytes]. destruct (N.eqb_spec c 0x25); [contradiction|].
  reflexivity.
Qed.

Lemma unquote_to_bytes_quoter bs :
  Forall is_byte bs ->
  unquote_to_bytes (flat_map (quoter default_safe) bs) = bs.
Proof.
  induction 1 as [|b t Hb _ IH]; [reflexivity|].
  cbn [flat_map]. unfold quoter at 1.
  destruct (is_safe default_safe b) eqn:S.
  - apply is_safe_ascii in S as [_ S]. cbn [app].
    rewrite unquote_to_bytes_other by assumption. now rewrite IH.
  - rewrite unquote_to_bytes_percent by assumption. now rewrite IH.
Qed.

Lemma quoter_ascii bs :
  Forall is_byte bs -> Forall is_ascii (flat_map (quoter default_safe) bs).
Proof.
  induction 1 as [|b t Hb _ IH]; [constructor|].
  cbn [flat_map]. apply Forall_app. split; [|assumption].
  unfold quoter. destruct (is_safe default_safe b) eqn:S.
  - constructor; [|constructor]. now apply is_safe_ascii.
  - unfold is_byte in Hb. unfold percent.
    apply Forall_cons; [unfold is_ascii; lia|].
    apply Forall_cons; [apply hexdig_upper_ascii; divmod|].
    apply Forall_cons; [apply hexdig_upper_ascii; divmod|].
    constructor.
Qed.

Lemma quoter_has_percent bs :
  forallb (is_safe default_safe) bs = false ->
  existsb (N.eqb 0x25) (flat_map (quoter default_safe) bs) = true.
Proof.
  induction bs as [|b t IH]; [discriminate|].
  cbn [forallb flat_map]. rewrite existsb_app. unfold quoter at 1.
  destruct (is_safe default_safe b); cbn [andb].
  - intros H. rewrite (IH H). apply orb_true_r.
  - intros _. reflexivity.
Qed.

Lemma unquote_parts_ascii s : forall run,
  Forall is_ascii s -> unquote_parts run s = unquote_run (rev run ++ s).
Proof.
  induction s as [|c t IH]; intros run H.
  - cbn [unquote_parts]. now rewrite app_nil_r.
  - inversion H as [|? ? Hc Ht]; subst. cbn [unquote_parts].
    unfold is_ascii in Hc. destruct (N.ltb_spec c 0x80); [|lia].
    rewrite (IH (c :: run) Ht). cbn [rev]. now rewrite <- app_assoc.
Qed.

Lemma quote_from_bytes_unquote x bs e :
  utf8_encode x = Ok bs ->
  quote_from_bytes default_safe bs = Ok e ->
  unquote e = Ok x.
Proof.
  intros E Q. pose proof (utf8_encode_bytes _ _ E) as B.
  unfold quote_from_bytes in Q. destruct bs as [|b0 bt].
  - apply Ok_inj in Q. subst e.
    pose proof (utf8_decode_encode Strict _ _ E) as D. cbn in D.
    apply Ok_inj in D. now subst x.
  - remember (b0 :: bt) as bs eqn:Ebs. clear Ebs b0 bt.
    destruct (forallb (is_safe default_safe) bs) eqn:S.
    + rewrite (utf8_decode_encode Strict _ _ E) in Q. apply Ok_inj in Q. subst e.
      pose proof (utf8_decode_encode Strict _ _ E) as D.
      rewrite (utf8_decode_ascii Strict _ (all_safe_ascii _ S)) in D.
      apply Ok_inj in D. subst x.
      unfold unquote. now rewrite (all_safe_no_percent _ S).
    + apply Ok_inj in Q. subst e. unfold unquote.
      rewrite (quoter_has_percent _ S).
      rewrite unquote_parts_ascii by now apply quoter_ascii.
      cbn [rev app]. unfold unquote_run.
      rewrite unquote_to_bytes_quoter by assumption.
      now apply utf8_decode_encode.
Qed.

Lemma quote_unquote x e : quote x = Ok e -> unquote e = Ok x.
Proof.
  unfold quote. destruct x as [|c t].
  - intros <-%Ok_inj. reflexivity.
  - destruct (utf8_encode (c :: t)) as [bs|] eqn:E; [|discriminate].
    cbn [rbind]. now apply quote_from_bytes_unquote.
Qed.

Lemma quote_from_bytes_total bs :
  Forall is_byte bs ->
  exists e, quote_from_bytes default_safe bs = Ok e /\ Forall is_ascii e.
Proof.
  intros B. unfold quote_from_bytes. destruct bs as [|b0 bt].
  - exists []. split; [reflexivity|constructor].
  - remember (b0 :: bt) as bs eqn:Ebs. clear Ebs b0 bt.
    destruct (forallb (is_safe default_safe) bs) eqn:S.
    + exists bs. split; [|now apply all_safe_ascii].
      apply utf8_decode_ascii. now apply all_safe_ascii.
    + eexists. split; [reflexivity|]. now apply quoter_ascii.
Qed.

Lemma quote_encodable x bs :
  utf8_encode x = Ok bs -> exists e, quote x = Ok e /\ Forall is_ascii e.
Proof.
  intros E. unfold quote. destruct x as [|c t].
  - exists []. split; [reflexivity|constructor].
  - rewrite E. cbn [rbind]. apply quote_from_bytes_total.
    eapply utf8_encode_bytes; eassumption.
Qed.

Lemma quote_scalar x :
  Forall scalar x -> exists e, quote x = Ok e /\ Forall is_ascii e.
Proof.
  intros H. destruct (utf8_encode_scalar x H) as [bs E].
  eapply quote_encodable; eassumption.
Qed.

Lemma quote_ascii x e : quote x = Ok e -> Forall is_ascii e.
Proof.
  intros Q. unfold quote in Q. destruct x as [|c t].
  - apply Ok_inj in Q. subst. constructor.
  - destruct (utf8_encode (c :: t)) as [bs|] eqn:E; [|discriminate].
    destruct (quote_encodable _ _ E) as [e' [Q' A]].
    unfold quote in Q'. rewrite E in Q'. cbn [rbind] in Q, Q'. congruence.
Qed.

Lemma utf8_encode_cp_raises c e :
  utf8_encode_cp c = Raise e -> e = UnicodeEncodeError.
Proof.
  unfold utf8_encode_cp.
  repeat match goal with
         | |- context [if ?b then _ else _] => destruct b
         end; congruence.
Qed.

Lemma utf8_encode_raises s e :
  utf8_encode s = Raise e -> e = UnicodeEncodeError.
Proof.
  induction s as [|c t IH]; [discriminate|].
  cbn [utf8_encode]. destruct (utf8_encode_cp c) as [b|e'] eqn:E; cbn [rbind].
  - destruct (utf8_encode t); cbn [rbind]; [discriminate|]. intros [= <-]. now apply IH.
  - intros [= <-]. eapply utf8_encode_cp_raises; eassumption.
Qed.

(** A string with a lone surrogate has no UTF-8 encoding under ['strict']:
    the only failure of [quote]. *)
Lemma quote_raises x e :
  quote x = Raise e -> e = UnicodeEncodeError /\ ~ Forall scalar x.
Proof.
  intros Q. split.
  - unfold quote in Q. destruct x as [|c t]; [discriminate|].
    destruct (utf8_encode (c :: t)) as [bs|e'] eqn:E.
    + destruct (quote_encodable _ _ E) as [e' [Q' _]].
      unfold quote in Q'. rewrite E in Q'. cbn [rbind] in Q, Q'. congruence.
    + cbn [rbind] in Q. injection Q as <-. eapply utf8_encode_raises; eassumption.
  - intros S. destruct (quote_scalar x S) as [e' [Q' _]]. congruence.
Qed.

(** ** The scanner consumes input, and only nesting stops it *)

Ltac break_match :=
  match goal with
  | |- context [match ?x with _ => _ end] => destruct x eqn:?
  end.

Lemma skip_ws_length s : (List.length (skip_ws s) <= List.length s)%nat.
Proof.
  induction s as [|c t IH]; cbn [skip_ws]; [lia|].
  destruct (is_ws c); cbn [List.length]; lia.
Qed.

Lemma strip_prefix_length p : forall s r,
  strip_prefix p s = Some r ->
  (List.length r + List.length p = List.length s)%nat.
Proof.
  induction p as [|a p IH]; intros s r; cbn [strip_prefix].
  - intros [= <-]. cbn. lia.
  - destruct s as [|b s]; [discriminate|]. destruct (a =? b); [|discriminate].
    intros H. apply IH in H. cbn [List.length]. lia.
Qed.

Lemma span_digits_length s ds r :
  span_digits s = (ds, r) -> (List.length ds + List.length r = List.length s)%nat.
Proof.
  revert ds r. induction s as [|c t IH]; intros ds r; cbn [span_digits].
  - intros [= <- <-]. reflexivity.
  - destruct (is_digit c).
    + destruct (span_digits t) as [ds' r'] eqn:E. intros [= <- <-].
      specialize (IH _ _ eq_refl). cbn [List.length]. lia.
    + intros [= <- <-]. cbn [List.length]. lia.
Qed.

Lemma scanstring_steps n : forall s,
  (List.length s <= n)%nat ->
  scanstring s <> Starved /\
  forall x r, scanstring s = Scanned x r -> (List.length r < List.length s)%nat.
Proof.
  induction n as [|n IH]; intros s L.
  - destruct s; [|cbn in L; lia]. cbn. split; [discriminate|]. discriminate.
  - destruct s as [|c t]; [cbn; split; discriminate|].
    cbn [List.length] in L.
    split.
    + cbn [scanstring]. repeat break_match; subst; try discriminate;
        intros _;
        match goal with
        | H : scanstring ?u = Starved |- _ =>
          let Lu := fresh in
          assert (Lu : (List.length u <= n)%nat) by (cbn [List.length] in *; lia);
          exact (proj1 (IH u Lu) H)
        end.
    + intros x r. cbn [scanstring]. repeat break_match; subst; try discriminate;
        intros [= <- <-];
        try match goal with
        | H : scanstring ?u = Scanned _ _ |- _ =>
          let Lu := fresh in
          assert (Lu : (List.length u <= n)%nat) by (cbn [List.length] in *; lia);
          pose proof (proj2 (IH u Lu) _ _ H)
        end; cbn [List.length] in *; lia.
Qed.

Lemma scanstring_progresses : progresses scanstring.
Proof.
  intros s x r H. exact (proj2 (scanstring_steps _ s (le_n _)) x r H).
Qed.

Lemma scanstring_fed s : scanstring s <> Starved.
Proof. exact (proj1 (scanstring_steps _ s (le_n _))). Qed.

Lemma match_int_progresses s i r :
  match_int s = Some (i, r) -> (List.length r < List.length s)%nat.
Proof.
  unfold match_int. destruct s as [|c t]; [discriminate|].
  destruct (c =? 0x30).
  - intros [= <- <-]. cbn [List.length]. lia.
  - destruct (is_digit c); [|discriminate].
    destruct (span_digits t) as [ds r'] eqn:E. intros [= <- <-].
    apply span_digits_length in E. cbn [List.length]. lia.
Qed.

Lemma match_frac_length s f r :
  match_frac s = (f, r) -> (List.length r <= List.length s)%nat.
Proof.
  unfold match_frac. destruct s as [|c t].
  - intros [= <- <-]. lia.
  - destruct (c =? 0x2E).
    + destruct (span_digits t) as [ds r'] eqn:E. apply span_digits_length in E.
      destruct ds; intros [= <- <-]; cbn [List.length] in *; lia.
    + intros [= <- <-]. lia.
Qed.

Lemma match_exp_length s e r :
  match_exp s = (e, r) -> (List.length r <= List.length s)%nat.
Proof.
  unfold match_exp. destruct s as [|c t]; [intros [= <- <-]; lia|].
  destruct ((c =? 0x65) || (c =? 0x45)); [|intros [= <- <-]; lia].
  destruct t as [|sg t']; [intros [= <- <-]; lia|].
  destruct ((sg =? 0x2D) || (sg =? 0x2B)).
  - destruct (span_digits t') as [ds r'] eqn:E. apply span_digits_length in E.
    destruct ds; intros [= <- <-]; cbn [List.length] in *; lia.
  - destruct (span_digits (sg :: t')) as [ds r'] eqn:E.
    apply span_digits_length in E.
    destruct ds; intros [= <- <-]; cbn [List.length] in *; lia.
Qed.

Lemma match_number_progresses s i f e r :
  match_number s = Some (i, f, e, r) -> (List.length r < List.length s)%nat.
Proof.
  unfold match_number.
  assert (S : forall sg,
    match s with
    | [] => None
    | c :: t =>
      if c =? 0x2D
      then match match_int t with
           | Some (i, r) => Some (c :: i, r)
           | None => None
           end
      else match_int s
    end = Some sg -> (List.length (snd sg) < List.length s)%nat).
  { intros [i' r']. destruct s as [|c t]; [discriminate|].
    destruct (c =? 0x2D).
    - destruct (match_int t) as [[i0 r0]|] eqn:E; [|discriminate].
      intros [= <- <-]. apply match_int_progresses in E.
      cbn [snd List.length]. lia.
    - intros E. apply match_int_progresses in E. exact E. }
  destruct (match s with [] => None | c :: t => _ end) as [[i' r']|];
    [|discriminate].
  specialize (S _ eq_refl). cbn [snd] in S.
  destruct (match_frac r') as [f' r1] eqn:F.
  destruct (match_exp r1) as [e' r2] eqn:X.
  intros [= <- <- <- <-].
  apply match_frac_length in F. apply match_exp_length in X. lia.
Qed.

Lemma array_items_progresses sc n :
  progresses sc -> progresses (array_items sc n).
Proof.
  intros P. induction n as [|n IH]; intros s vs r; cbn [array_items];
    [discriminate|].
  destruct (sc s) as [v r0| | |] eqn:E; cbn [then_scan]; try discriminate.
  apply P in E. pose proof (skip_ws_length r0) as W.
  destruct (skip_ws r0) as [|c r1]; [discriminate|]. cbn [List.length] in W.
  destruct (c =? 0x5D).
  - intros [= <- <-]. lia.
  - destruct (c =? 0x2C); [|discriminate].
    destruct (array_items sc n (skip_ws r1)) as [vs' r2| | |] eqn:A;
      cbn [then_scan]; try discriminate.
    intros [= <- <-]. apply IH in A. pose proof (skip_ws_length r1). lia.
Qed.

(** The bound on the number of elements is never what stops the loop: it
    is stopped by the recursion guard only where the scanner of the
    elements is. *)
Lemma array_items_fed sc bound n :
  progresses sc -> fed bound sc ->
  forall s, (List.length s < n)%nat -> (List.length s < bound)%nat ->
  array_items sc n s <> Starved.
Proof.
  intros P F. induction n as [|n IH]; intros s Ln Lb; [lia|].
  cbn [array_items]. destruct (sc s) as [v r0| | |] eqn:E; cbn [then_scan].
  - apply P in E. pose proof (skip_ws_length r0) as W.
    destruct (skip_ws r0) as [|c r1]; [discriminate|]. cbn [List.length] in W.
    destruct (c =? 0x5D); [discriminate|].
    destruct (c =? 0x2C); [|discriminate].
    pose proof (skip_ws_length r1) as W1.
    specialize (IH (skip_ws r1) ltac:(lia) ltac:(lia)).
    destruct (array_items sc n (skip_ws r1)); cbn [then_scan]; congruence.
  - discriminate.
  - now apply F in E.
  - discriminate.
Qed.

Lemma JSONArray_progresses sc s v r :
  progresses sc -> JSONArray sc s = Scanned v r ->
  (List.length r <= List.length s)%nat.
Proof.
  intros P. unfold JSONArray. pose proof (skip_ws_length s) as W.
  destruct (skip_ws s) as [|c r0] eqn:E; [discriminate|].
  destruct (c =? 0x5D).
  - intros [= <- <-]. cbn [List.length] in W. lia.
  - destruct (array_items sc (S (List.length s)) (c :: r0)) as [vs r1| | |] eqn:A;
      cbn [then_scan]; try discriminate.
    intros [= <- <-]. apply array_items_progresses in A; [lia|assumption].
Qed.

Lemma JSONArray_fed sc bound s :
  progresses sc -> fed bound sc -> (List.length s < bound)%nat ->
  JSONArray sc s <> Starved.
Proof.
  intros P F L. unfold JSONArray. pose proof (skip_ws_length s) as W.
  destruct (skip_ws s) as [|c r0] eqn:E; [discriminate|].
  destruct (c =? 0x5D); [discriminate|].
  pose proof (array_items_fed sc bound (S (List.length s)) P F (c :: r0)
                ltac:(lia) ltac:(lia)) as A.
  destruct (array_items sc (S (List.length s)) (c :: r0));
    cbn [then_scan]; congruence.
Qed.

Lemma object_pairs_progresses sc n :
  progresses sc -> progresses (object_pairs sc n).
Proof.
  intros P. induction n as [|n IH]; intros s kvs r; cbn [object_pairs];
    [discriminate|].
  destruct (scanstring s) as [key r0| | |] eqn:K; cbn [then_scan];
    try discriminate.
  apply scanstring_progresses in K. pose proof (skip_ws_length r0) as W0.
  destruct (skip_ws r0) as [|colon r1]; [discriminate|].
  cbn [List.length] in W0.
  destruct (colon =? 0x3A); [|discriminate].
  pose proof (skip_ws_length r1) as W1.
  destruct (sc (skip_ws r1)) as [v r2| | |] eqn:V; cbn [then_scan];
    try discriminate.
  apply P in V. pose proof (skip_ws_length r2) as W2.
  destruct (skip_ws r2) as [|c r3]; [discriminate|]. cbn [List.length] in W2.
  destruct (c =? 0x7D).
  - intros [= <- <-]. lia.
  - destruct (c =? 0x2C); [|discriminate].
    pose proof (skip_ws_length r3) as W3.
    destruct (skip_ws r3) as [|q r4]; [discriminate|]. cbn [List.length] in W3.
    destruct (q =? 0x22); [|discriminate].
    destruct (object_pairs sc n r4) as [kvs' r5| | |] eqn:O; cbn [then_scan];
      try discriminate.
    intros [= <- <-]. apply IH in O. lia.
Qed.

Lemma object_pairs_fed sc bound n :
  progresses sc -> fed bound sc ->
  forall s, (List.length s < n)%nat -> (List.length s < bound)%nat ->
  object_pairs sc n s <> Starved.
Proof.
  intros P F. induction n as [|n IH]; intros s Ln Lb; [lia|].
  cbn [object_pairs]. destruct (scanstring s) as [key r0| | |] eqn:K;
    cbn [then_scan].
  - apply scanstring_progresses in K. pose proof (skip_ws_length r0) as W0.
    destruct (skip_ws r0) as [|colon r1]; [discriminate|].
    cbn [List.length] in W0.
    destruct (colon =? 0x3A); [|discriminate].
    pose proof (skip_ws_length r1) as W1.
    destruct (sc (skip_ws r1)) as [v r2| | |] eqn:V; cbn [then_scan].
    + apply P in V. pose proof (skip_ws_length r2) as W2.
      destruct (skip_ws r2) as [|c r3]; [discriminate|].
      cbn [List.length] in W2.
      destruct (c =? 0x7D); [discriminate|].
      destruct (c =? 0x2C); [|discriminate].
      pose proof (skip_ws_length r3) as W3.
      destruct (skip_ws r3) as [|q r4]; [discriminate|].
      cbn [List.length] in W3.
      destruct (q =? 0x22); [|discriminate].
      specialize (IH r4 ltac:(lia) ltac:(lia)).
      destruct (object_pairs sc n r4); cbn [then_scan]; congruence.
    + discriminate.
    + apply F in V; [contradiction|lia].
    + discriminate.
  - discriminate.
  - now apply scanstring_fed in K.
  - discriminate.
Qed.

Lemma JSONObject_progresses sc s v r :
  progresses sc -> JSONObject sc s = Scanned v r ->
  (List.length r <= List.length s)%nat.
Proof.
  intros P. unfold JSONObject. pose proof (skip_ws_length s) as W.
  destruct (skip_ws s) as [|c r0] eqn:E; [discriminate|].
  cbn [List.length] in W.
  destruct (c =? 0x7D).
  - intros [= <- <-]. lia.
  - destruct (c =? 0x22); [|discriminate].
    destruct (object_pairs sc (S (List.length s)) r0) as [kvs r1| | |] eqn:O;
      cbn [then_scan]; try discriminate.
    intros [= <- <-]. apply object_pairs_progresses in O; [lia|assumption].
Qed.

Lemma JSONObject_fed sc bound s :
  progresses sc -> fed bound sc -> (List.length s < bound)%nat ->
  JSONObject sc s <> Starved.
Proof.
  intros P F L. unfold JSONObject. pose proof (skip_ws_length s) as W.
  destruct (skip_ws s) as [|c r0] eqn:E; [discriminate|].
  cbn [List.length] in W.
  destruct (c =? 0x7D); [discriminate|].
  destruct (c =? 0x22); [|discriminate].
  pose proof (object_pairs_fed sc bound (S (List.length s)) P F r0
                ltac:(lia) ltac:(lia)) as O.
  destruct (object_pairs sc (S (List.length s)) r0); cbn [then_scan]; congruence.
Qed.

Lemma scan_once_progresses c m depth : progresses (scan_once c m depth).
Proof.
  induction depth as [|depth IH]; intros s v r; cbn [scan_once];
    (destruct s as [|ch t]; [discriminate|]);
    (destruct (ch =? 0x22);
     [ destruct (scanstring t) as [str r0| | |] eqn:K; cbn [then_scan];
       try discriminate; intros [= <- <-];
       apply scanstring_progresses in K; cbn [List.length]; lia |]);
    (destruct (ch =? 0x7B);
     [ first [ discriminate
             | intros H; apply JSONObject_progresses in H; [|assumption];
               cbn [List.length]; lia ] |]);
    (destruct (ch =? 0x5B);
     [ first [ discriminate
             | intros H; apply JSONArray_progresses in H; [|assumption];
               cbn [List.length]; lia ] |]);
    repeat break_match; try discriminate; intros [= <- <-];
    repeat match goal with
    | H : strip_prefix _ _ = Some _ |- _ =>
      apply strip_prefix_length in H; cbn in H
    | H : match_number _ = Some _ |- _ => apply match_number_progresses in H
    end; cbn [List.length] in *; lia.
Qed.

(** The recursion guard stops the scanner only on a text that nests
    deeper than it allows: with room for as many containers as the text
    has characters it never does. *)
Lemma scan_once_fed c m depth : fed (S depth) (scan_once c m depth).
Proof.
  induction depth as [|depth IH]; intros s L; cbn [scan_once];
    (destruct s as [|ch t]; [discriminate|]); cbn [List.length] in L.
  - lia.
  - destruct (ch =? 0x22).
    { pose proof (scanstring_fed t).
      destruct (scanstring t); cbn [then_scan]; congruence. }
    destruct (ch =? 0x7B).
    { apply (JSONObject_fed _ (S depth));
        [apply scan_once_progresses|assumption|lia]. }
    destruct (ch =? 0x5B).
    { apply (JSONArray_fed _ (S depth));
        [apply scan_once_progresses|assumption|lia]. }
    repeat break_match; discriminate.
Qed.

Lemma decode_within_fed c m s : decode_within c m (List.length s) s <> Starved.
Proof.
  unfold decode_within. pose proof (skip_ws_length s) as W.
  pose proof (scan_once_fed c m (List.length s) (skip_ws s) ltac:(lia)) as F.
  destruct (scan_once c m (List.length s) (skip_ws s)) as [v r| | |];
    cbn [then_scan]; try congruence.
  destruct (skip_ws r); discriminate.
Qed.

Lemma utf8_decode_raises m bs e :
  m <> Replace -> utf8_decode m bs = Raise e -> e = UnicodeDecodeError.
Proof.
  intros Hm. remember (List.length bs) as n eqn:Hn.
  revert bs Hn. induction n as [n IH] using lt_wf_ind. intros bs Hn.
  assert (I : forall t, (List.length t < n)%nat ->
              forall c, rmap (cons c) (utf8_decode m t) = Raise e ->
              e = UnicodeDecodeError).
  { intros t Lt c. destruct (utf8_decode m t) eqn:E; [discriminate|].
    cbn. intros [= <-]. eapply IH; [exact Lt|reflexivity|exact E]. }
  assert (J : forall x, ill_formed m x = Raise e -> e = UnicodeDecodeError).
  { intros x. destruct m; cbn; congruence. }
  subst n. destruct bs as [|b0 t0]; cbn [utf8_decode]; [discriminate|].
  repeat break_match; subst;
    first [ apply J | apply I; cbn [List.length]; lia ].
Qed.

Lemma bytes_decode_raises rt enc b e :
  bytes_decode rt enc b = Raise e -> e = UnicodeDecodeError.
Proof.
  unfold bytes_decode. destruct enc.
  1: apply utf8_decode_raises; discriminate.
  1: destruct (strip_prefix _ b); apply utf8_decode_raises; discriminate.
  all: destruct (wide_decode rt _ b); congruence.
Qed.

(** [json.loads] fails with a decoding error of the text or of the JSON
    grammar, or at a limit of the interpreter, never otherwise. *)
Lemma json_loads_raises lim rt b e :
  json_loads lim rt b = Raise e -> load_error e.
Proof.
  unfold json_loads, load_error, parse_error.
  destruct (bytes_decode rt (detect_encoding b) b) as [s|e'] eqn:D; cbn [rbind].
  - unfold loads_text. destruct (decode lim s); intros [= <-]; auto.
  - intros [= <-]. apply bytes_decode_raises in D. auto.
Qed.

(** ** The search request and the encoded term *)

Lemma quoter_safe_id bs :
  forallb (is_safe default_safe) bs = true ->
  flat_map (quoter default_safe) bs = bs.
Proof.
  induction bs as [|b t IH]; [reflexivity|]. cbn [forallb flat_map].
  intros [Hb Ht]%andb_true_iff. unfold quoter at 1. rewrite Hb.
  cbn [app]. now rewrite IH.
Qed.

(** [quote] escapes the UTF-8 bytes of its argument one by one. *)
Lemma quote_bytewise x bs :
  utf8_encode x = Ok bs -> quote x = Ok (flat_map (quoter default_safe) bs).
Proof.
  intros E. unfold quote. destruct x as [|c t].
  - apply Ok_inj in E. now subst bs.
  - rewrite E. cbn [rbind]. unfold quote_from_bytes.
    destruct bs as [|b0 bt]; [reflexivity|].
    remember (b0 :: bt) as bs eqn:Ebs. clear Ebs b0 bt.
    destruct (forallb (is_safe default_safe) bs) eqn:S; [|reflexivity].
    rewrite (quoter_safe_id _ S).
    apply utf8_decode_ascii. now apply all_safe_ascii.
Qed.

Lemma utf8_encode_app x y bx bys :
  utf8_encode x = Ok bx -> utf8_encode y = Ok bys ->
  utf8_encode (x ++ y) = Ok (bx ++ bys).
Proof.
  revert bx. induction x as [|c t IH]; intros bx.
  - intros <-%Ok_inj. now cbn.
  - cbn [utf8_encode app].
    destruct (utf8_encode_cp c) as [b|]; [|discriminate]. cbn [rbind].
    destruct (utf8_encode t) as [r|]; [|discriminate]. cbn [rbind].
    intros <-%Ok_inj Hy. rewrite (IH r eq_refl Hy). cbn [rbind].
    now rewrite app_assoc.
Qed.

Lemma quote_encoded x e : quote x = Ok e -> exists bs, utf8_encode x = Ok bs.
Proof.
  unfold quote. destruct x as [|c t]; [now exists []|].
  destruct (utf8_encode (c :: t)) as [bs|]; [now exists bs|discriminate].
Qed.

(** [quote] works character by character: the encoded form of a string is
    the concatenation of the encoded forms of its parts. *)
Lemma quote_app x y ex ey :
  quote x = Ok ex -> quote y = Ok ey -> quote (x ++ y) = Ok (ex ++ ey).
Proof.
  intros Qx Qy.
  destruct (quote_encoded _ _ Qx) as [bx Ex].
  destruct (quote_encoded _ _ Qy) as [bys Ey].
  rewrite (quote_bytewise _ _ Ex) in Qx. rewrite (quote_bytewise _ _ Ey) in Qy.
  apply Ok_inj in Qx, Qy. subst ex ey.
  rewrite (quote_bytewise _ _ (utf8_encode_app _ _ _ _ Ex Ey)).
  now rewrite flat_map_app.
Qed.

Lemma quoter_length bs :
  forallb (is_safe default_safe) bs = false ->
  (List.length bs < List.length (flat_map (quoter default_safe) bs))%nat.
Proof.
  assert (G : forall l, (List.length l
                         <= List.length (flat_map (quoter default_safe) l))%nat).
  { induction l as [|b t IH]; [cbn; lia|]. cbn [flat_map].
    rewrite length_app. unfold quoter at 1.
    destruct (is_safe default_safe b); cbn [List.length percent]; lia. }
  induction bs as [|b t IH]; [discriminate|]. cbn [forallb flat_map].
  rewrite length_app. unfold quoter at 1.
  destruct (is_safe default_safe b); cbn [andb List.length percent].
  - intros H. specialize (IH H). lia.
  - intros _. specialize (G t). lia.
Qed.

Lemma utf8_encode_length x bs :
  utf8_encode x = Ok bs -> (List.length x <= List.length bs)%nat.
Proof.
  revert bs. induction x as [|c t IH]; intros bs.
  - intros <-%Ok_inj. cbn. lia.
  - cbn [utf8_encode]. destruct (utf8_encode_cp c) as [b|] eqn:E; [|discriminate].
    cbn [rbind]. destruct (utf8_encode t) as [r|]; [|discriminate].
    intros <-%Ok_inj. specialize (IH r eq_refl). rewrite length_app.
    cbn [List.length].
    assert (1 <= List.length b)%nat; [|lia].
    revert E. unfold utf8_encode_cp.
    repeat match goal with
           | |- context [if ?c then _ else _] => destruct c
           end; try discriminate; intros <-%Ok_inj; cbn [List.length]; lia.
Qed.

(** A term with a character [quote] does not leave alone is changed by the
    encoding. *)
Lemma quote_changes term enc :
  quote term = Ok enc ->
  forallb (is_safe default_safe) term = false -> enc <> term.
Proof.
  intros Q U. destruct (quote_encoded _ _ Q) as [bs E].
  rewrite (quote_bytewise _ _ E) in Q. apply Ok_inj in Q. subst enc.
  destruct (forallb (is_safe default_safe) bs) eqn:S.
  - pose proof (utf8_decode_encode Strict _ _ E) as D.
    rewrite (utf8_decode_ascii Strict _ (all_safe_ascii _ S)) in D.
    apply Ok_inj in D. congruence.
  - intros C. pose proof (quoter_length _ S) as L1.
    pose proof (utf8_encode_length _ _ E) as L2. rewrite C in L1. lia.
Qed.

(** ** White space *)

Lemma skip_ws_nonws c t : is_ws c = false -> skip_ws (c :: t) = c :: t.
Proof. intros H. cbn [skip_ws]. now rewrite H. Qed.

Lemma skip_ws_blank w s :
  Forall (fun c => is_ws c = true) w -> skip_ws (w ++ s) = skip_ws s.
Proof.
  induction 1 as [|c t Hc _ IH]; [reflexivity|].
  cbn [app skip_ws]. now rewrite Hc.
Qed.

Lemma ws_text_byte c : is_ws c = true -> text_byte c.
Proof.
  unfold is_ws, text_byte. intros H.
  repeat (apply orb_true_iff in H; destruct H as [H|H]);
    apply N.eqb_eq in H; subst; lia.
Qed.

(** ** The grammar on examples *)

Example json_grammar_accepts :
  json_grammar (lit "{}") = true
  /\ json_grammar (lit " [1, -2.5e+3, true, false, null] ") = true
  /\ json_grammar (json_string "a\n\u00e9") = true
  /\ json_grammar (lit "0") = true.
Proof. repeat split. Qed.

Example json_grammar_rejects :
  json_grammar (lit "NaN") = false
  /\ json_grammar (lit "-Infinity") = false
  /\ json_grammar (lit "[1, 2,]") = false
  /\ json_grammar (lit "{'a': 1}") = false
  /\ json_grammar (lit "01") = false
  /\ json_grammar (lit "1.") = false
  /\ json_grammar (lit "[1] 2") = false
  /\ json_grammar (lit "{1: 2}") = false
  /\ json_grammar [0x22; 0x09; 0x22] = false
  /\ json_grammar [] = false.
Proof. repeat split. Qed.

(** ** Valid JSON and [json.loads] *)

Lemma then_scan_limits {A B} (x y : scan A) (k k' : A -> pystr -> scan B) :
  up_to_limits x y ->
  (forall a r, up_to_limits (k a r) (k' a r)) ->
  up_to_limits (then_scan x k) (then_scan y k').
Proof.
  intros X K b r H. destruct x as [a r0| | |]; try discriminate H.
  cbn [then_scan] in H.
  destruct (X a r0 eq_refl) as [-> |[-> | ->]]; cbn [then_scan].
  - now apply K.
  - right. now left.
  - right. now right.
Qed.

Lemma up_to_limits_refl {A} (x : scan A) : up_to_limits x x.
Proof. intros a r H. now left. Qed.

Section Limits.

Variables sc sc' : pystr -> scan value.
Hypothesis scs : forall s, up_to_limits (sc s) (sc' s).

Lemma array_items_limits n : forall s,
  up_to_limits (array_items sc n s) (array_items sc' n s).
Proof.
  induction n as [|n IH]; intros s; [apply up_to_limits_refl|].
  cbn [array_items]. apply then_scan_limits; [apply scs|].
  intros v r. destruct (skip_ws r) as [|c r']; [apply up_to_limits_refl|].
  destruct (c =? 0x5D); [apply up_to_limits_refl|].
  destruct (c =? 0x2C); [|apply up_to_limits_refl].
  apply then_scan_limits; [apply IH|]. intros; apply up_to_limits_refl.
Qed.

Lemma JSONArray_limits s : up_to_limits (JSONArray sc s) (JSONArray sc' s).
Proof.
  unfold JSONArray. destruct (skip_ws s) as [|c r]; [apply up_to_limits_refl|].
  destruct (c =? 0x5D); [apply up_to_limits_refl|].
  apply then_scan_limits; [apply array_items_limits|].
  intros; apply up_to_limits_refl.
Qed.

Lemma object_pairs_limits n : forall s,
  up_to_limits (object_pairs sc n s) (object_pairs sc' n s).
Proof.
  induction n as [|n IH]; intros s; [apply up_to_limits_refl|].
  cbn [object_pairs]. apply then_scan_limits; [apply up_to_limits_refl|].
  intros key r. destruct (skip_ws r) as [|colon r1]; [apply up_to_limits_refl|].
  destruct (colon =? 0x3A); [|apply up_to_limits_refl].
  apply then_scan_limits; [apply scs|].
  intros v r2. destruct (skip_ws r2) as [|c r3]; [apply up_to_limits_refl|].
  destruct (c =? 0x7D); [apply up_to_limits_refl|].
  destruct (c =? 0x2C); [|apply up_to_limits_refl].
  destruct (skip_ws r3) as [|q r4]; [apply up_to_limits_refl|].
  destruct (q =? 0x22); [|apply up_to_limits_refl].
  apply then_scan_limits; [apply IH|]. intros; apply up_to_limits_refl.
Qed.

Lemma JSONObject_limits s : up_to_limits (JSONObject sc s) (JSONObject sc' s).
Proof.
  unfold JSONObject. destruct (skip_ws s) as [|c r]; [apply up_to_limits_refl|].
  destruct (c =? 0x7D); [apply up_to_limits_refl|].
  destruct (c =? 0x22); [|apply up_to_limits_refl].
  apply then_scan_limits; [apply object_pairs_limits|].
  intros; apply up_to_limits_refl.
Qed.

End Limits.

Lemma too_many_digits_off i : too_many_digits 0 i = false.
Proof.
  unfold too_many_digits. cbn [Nat.ltb Nat.leb]. now rewrite andb_false_r.
Qed.

(** What the grammar reads, the decoder of the script reads too, unless
    the recursion guard or the digit limit stops it. *)
Lemma scan_once_limits m : forall d d' s,
  up_to_limits (scan_once false 0 d s) (scan_once true m d' s).
Proof.
  assert (Stops : forall (x y : scan value),
            y = Starved \/ (forall a r, x <> Scanned a r) -> up_to_limits x y).
  { intros x y [-> |N] a r H; [right; now left|]. now destruct (N a r). }
  assert (Scalar : forall s,
            up_to_limits (scan_once false 0 0 s) (scan_once true m 0 s)).
  { intros [|c t]; [apply up_to_limits_refl|]. cbn [scan_once].
    destruct (c =? 0x22); [apply up_to_limits_refl|].
    destruct (c =? 0x7B); [apply up_to_limits_refl|].
    destruct (c =? 0x5B); [apply up_to_limits_refl|].
    destruct (strip_prefix (lit "null") (c :: t)); [apply up_to_limits_refl|].
    destruct (strip_prefix (lit "true") (c :: t)); [apply up_to_limits_refl|].
    destruct (strip_prefix (lit "false") (c :: t)); [apply up_to_limits_refl|].
    destruct (match_number (c :: t)) as [[[[i f] e] r]|];
      [|apply Stops; right; discriminate].
    destruct f, e; try apply up_to_limits_refl.
    rewrite too_many_digits_off.
    destruct (too_many_digits m i); [|apply up_to_limits_refl].
    intros a r0 _. right. now right. }
  assert (Same : forall c k d s,
            match s with
            | ch :: _ => (ch =? 0x7B) || (ch =? 0x5B) = false
            | [] => True
            end ->
            scan_once c k d s = scan_once c k 0 s).
  { intros c k d [|ch t]; [now destruct d|]. intros H.
    apply orb_false_iff in H as [H1 H2].
    destruct d; cbn [scan_once]; now rewrite H1, H2. }
  induction d as [|d IH]; intros d' s.
  - destruct s as [|c t]; [destruct d'; apply up_to_limits_refl|].
    destruct ((c =? 0x7B) || (c =? 0x5B)) eqn:E.
    + apply Stops. right. cbn [scan_once].
      destruct (c =? 0x22) eqn:Q;
        [apply N.eqb_eq in Q; subst c; discriminate E|].
      destruct (c =? 0x7B); [discriminate|].
      cbn [orb] in E. rewrite E. discriminate.
    + rewrite (Same true m d' (c :: t) E). apply Scalar.
  - destruct s as [|c t]; [destruct d'; apply up_to_limits_refl|].
    destruct ((c =? 0x7B) || (c =? 0x5B)) eqn:E.
    + destruct d' as [|d'].
      * apply Stops. left. cbn [scan_once].
        destruct (c =? 0x22) eqn:Q;
          [apply N.eqb_eq in Q; subst c; discriminate E|].
        destruct (c =? 0x7B); [reflexivity|].
        cbn [orb] in E. now rewrite E.
      * cbn [scan_once]. destruct (c =? 0x22); [apply up_to_limits_refl|].
        destruct (c =? 0x7B); [apply JSONObject_limits; intros; apply IH|].
        cbn [orb] in E. rewrite E. apply JSONArray_limits. intros; apply IH.
    + rewrite (Same false 0%nat (S d) (c :: t) E), (Same true m d' (c :: t) E).
      apply Scalar.
Qed.

Lemma decode_within_limits m d d' s :
  up_to_limits (decode_within false 0 d s) (decode_within true m d' s).
Proof.
  unfold decode_within. apply then_scan_limits; [apply scan_once_limits|].
  intros; apply up_to_limits_refl.
Qed.

(** A text of the grammar is never refused as malformed. *)
Lemma grammar_loads_text lim s :
  json_grammar s = true ->
  (exists v, loads_text lim s = Ok v)
  \/ loads_text lim s = Raise RecursionError
  \/ loads_text lim s = Raise ValueError.
Proof.
  unfold json_grammar, loads_text, decode. intros G.
  destruct (decode_within false 0 (List.length s) s) as [v r| | |] eqn:D;
    try discriminate G.
  destruct (decode_within_limits (int_max_str_digits lim) (List.length s)
              (nesting_limit lim) s v r D) as [-> |[-> | ->]].
  - left. now exists v.
  - right. now left.
  - right. now right.
Qed.

Lemma second_of_3_pass b0 b1 :
  second_of_3 Strict b0 b1 = true -> second_of_3 SurrogatePass b0 b1 = true.
Proof.
  unfold second_of_3. destruct (is_cont b1); [|discriminate]. cbn [andb].
  destruct (b0 =? 0xE0); [trivial|]. now destruct (b0 =? 0xED).
Qed.

(** Well-formed UTF-8 is read alike with ['strict'] and with
    ['surrogatepass']. *)
Lemma utf8_strict_pass : forall n b s,
  (List.length b <= n)%nat ->
  utf8_decode Strict b = Ok s -> utf8_decode SurrogatePass b = Ok s.
Proof.
  induction n as [|n IH]; intros b s L H.
  - destruct b; [exact H|cbn in L; lia].
  - destruct b as [|b0 t0]; [exact H|]. cbn [utf8_decode] in H |- *.
    cbn [List.length] in L.
    assert (Rec : forall x t s',
              (List.length t <= n)%nat ->
              rmap (cons x) (utf8_decode Strict t) = Ok s' ->
              rmap (cons x) (utf8_decode SurrogatePass t) = Ok s').
    { intros x t s' Lt R. destruct (utf8_decode Strict t) as [u|] eqn:E;
        [|discriminate R]. now rewrite (IH t u Lt E). }
    destruct (b0 <? 0x80); [apply Rec; [lia|exact H]|].
    destruct (b0 <? 0xC2); [discriminate H|].
    destruct (b0 <? 0xE0).
    { destruct t0 as [|b1 t1]; [discriminate H|]. cbn [List.length] in L.
      destruct (is_cont b1); [apply Rec; [lia|exact H]|discriminate H]. }
    destruct (b0 <? 0xF0).
    { destruct t0 as [|b1 t1]; [discriminate H|]. cbn [List.length] in L.
      destruct (second_of_3 Strict b0 b1) eqn:S3; [|discriminate H].
      rewrite (second_of_3_pass _ _ S3).
      destruct t1 as [|b2 t2]; [discriminate H|]. cbn [List.length] in L.
      destruct (is_cont b2); [apply Rec; [lia|exact H]|discriminate H]. }
    destruct (b0 <? 0xF5); [|discriminate H].
    destruct t0 as [|b1 t1]; [discriminate H|]. cbn [List.length] in L.
    destruct (second_of_4 b0 b1); [|discriminate H].
    destruct t1 as [|b2 t2]; [discriminate H|]. cbn [List.length] in L.
    destruct (is_cont b2); [|discriminate H].
    destruct t2 as [|b3 t3]; [discriminate H|]. cbn [List.length] in L.
    destruct (is_cont b3); [apply Rec; [lia|exact H]|discriminate H].
Qed.

(** The first character of decoded UTF-8: an ASCII character is its own
    byte, and no other character starts with a zero byte. *)
Lemma utf8_decode_head b0 t0 s :
  utf8_decode Strict (b0 :: t0) = Ok s ->
  exists c s',
    s = c :: s'
    /\ (b0 = 0 -> c = 0)
    /\ (c < 0x80 -> b0 = c /\ utf8_decode Strict t0 = Ok s').
Proof.
  cbn [utf8_decode]. intros H.
  assert (Rec : forall x t,
            rmap (cons x) (utf8_decode Strict t) = Ok s ->
            exists s', s = x :: s' /\ utf8_decode Strict t = Ok s').
  { intros x t R. destruct (utf8_decode Strict t) as [u|]; [|discriminate R].
    cbn [rmap] in R. apply Ok_inj in R. subst s. now exists u. }
  destruct (N.ltb_spec b0 0x80) as [A|A].
  { destruct (Rec _ _ H) as [s' [-> D]]. exists b0, s'. now repeat split. }
  destruct (N.ltb_spec b0 0xC2); [discriminate H|].
  destruct (N.ltb_spec b0 0xE0).
  { destruct t0 as [|b1 t1]; [discriminate H|].
    destruct (is_cont b1); [|discriminate H].
    destruct (Rec _ _ H) as [s' [-> D]]. eexists _, s'.
    split; [reflexivity|]. split; intros; exfalso; clear Rec H D; lia. }
  destruct (N.ltb_spec b0 0xF0).
  { destruct t0 as [|b1 t1]; [discriminate H|].
    destruct (second_of_3 Strict b0 b1) eqn:S3; [|discriminate H].
    assert (B1 : b0 = 0xE0 -> 0xA0 <= b1).
    { intros ->. unfold second_of_3 in S3.
      apply andb_true_iff in S3 as [_ S3]. now apply N.leb_le. }
    destruct t1 as [|b2 t2]; [discriminate H|].
    destruct (is_cont b2); [|discriminate H].
    destruct (Rec _ _ H) as [s' [-> D]]. eexists _, s'.
    split; [reflexivity|]. split; intros; exfalso; clear Rec H D S3;
      destruct (N.eq_dec b0 0xE0) as [E|E]; [specialize (B1 E)| |specialize (B1 E)|];
      lia. }
  destruct (N.ltb_spec b0 0xF5); [|discriminate H].
  destruct t0 as [|b1 t1]; [discriminate H|].
  destruct (second_of_4 b0 b1) eqn:S4; [|discriminate H].
  assert (B1 : b0 = 0xF0 -> 0x90 <= b1).
  { intros ->. unfold second_of_4 in S4.
    apply andb_true_iff in S4 as [_ S4]. now apply N.leb_le. }
  destruct t1 as [|b2 t2]; [discriminate H|].
  destruct (is_cont b2); [|discriminate H].
  destruct t2 as [|b3 t3]; [discriminate H|].
  destruct (is_cont b3); [|discriminate H].
  destruct (Rec _ _ H) as [s' [-> D]]. eexists _, s'.
  split; [reflexivity|]. split; intros; exfalso; clear Rec H D S4;
    destruct (N.eq_dec b0 0xF0) as [E|E]; [specialize (B1 E)| |specialize (B1 E)|];
    lia.
Qed.

Lemma strip_prefix_head p0 p ch t r :
  strip_prefix (p0 :: p) (ch :: t) = Some r -> ch = p0.
Proof.
  cbn [strip_prefix]. destruct (N.eqb_spec p0 ch); [congruence|discriminate].
Qed.

Lemma match_number_head ch t x :
  match_number (ch :: t) = Some x -> ch = 0x2D \/ 0x30 <= ch <= 0x39.
Proof.
  unfold match_number, match_int.
  destruct (N.eqb_spec ch 0x2D); [now left|]. intros H. right.
  destruct (N.eqb_spec ch 0x30); [lia|].
  unfold is_digit in H.
  destruct (N.leb_spec 0x30 ch); [|discriminate H].
  destruct (N.leb_spec ch 0x39); [lia|discriminate H].
Qed.

(** The characters a JSON value can start with. *)
Lemma scan_once_start k d ch t v r :
  scan_once false k d (ch :: t) = Scanned v r ->
  In ch ([0x22; 0x7B; 0x5B] ++ lit "ntf-0123456789").
Proof.
  assert (Scalar : scan_once false k 0 (ch :: t) = Scanned v r ->
                   In ch ([0x22; 0x7B; 0x5B] ++ lit "ntf-0123456789")).
  { cbn [scan_once].
    destruct (N.eqb_spec ch 0x22); [subst; cbn; tauto|].
    destruct (N.eqb_spec ch 0x7B); [subst; cbn; tauto|].
    destruct (N.eqb_spec ch 0x5B); [subst; cbn; tauto|].
    destruct (strip_prefix (lit "null") (ch :: t)) eqn:E1.
    { apply strip_prefix_head in E1. subst. cbn. tauto. }
    destruct (strip_prefix (lit "true") (ch :: t)) eqn:E2.
    { apply strip_prefix_head in E2. subst. cbn. tauto. }
    destruct (strip_prefix (lit "false") (ch :: t)) eqn:E3.
    { apply strip_prefix_head in E3. subst. cbn. tauto. }
    destruct (match_number (ch :: t)) as [x|] eqn:E4; [|discriminate].
    intros _. apply match_number_head in E4.
    assert (D : ch = 0x2D \/ ch = 0x30 \/ ch = 0x31 \/ ch = 0x32 \/ ch = 0x33
                \/ ch = 0x34 \/ ch = 0x35 \/ ch = 0x36 \/ ch = 0x37
                \/ ch = 0x38 \/ ch = 0x39) by lia.
    cbn. intuition. }
  destruct d as [|d]; [exact Scalar|].
  intros H. cbn [scan_once] in H, Scalar.
  destruct (N.eqb_spec ch 0x22); [subst; cbn; tauto|].
  destruct (N.eqb_spec ch 0x7B); [subst; cbn; tauto|].
  destruct (N.eqb_spec ch 0x5B); [subst; cbn; tauto|].
  exact (Scalar H).
Qed.

Lemma scan_once_nul k d t : forall v r,
  scan_once false k d (0 :: t) <> Scanned v r.
Proof.
  intros v r H. apply scan_once_start in H. cbn in H.
  repeat (destruct H as [H|H]; [discriminate H|]). exact H.
Qed.

(** A text of the grammar starts with an ASCII character other than NUL,
    and its second character, if any, is not NUL either. *)
Lemma grammar_head s :
  json_grammar s = true ->
  exists c rest, s = c :: rest /\ 0 < c < 0x80 /\ forall t, rest <> 0 :: t.
Proof.
  unfold json_grammar, decode_within. destruct s as [|c rest]; [discriminate|].
  intros G. exists c, rest. split; [reflexivity|].
  destruct (is_ws c) eqn:W.
  - split; [now apply ws_text_byte|]. intros t ->.
    cbn [skip_ws] in G. rewrite W in G.
    change (is_ws 0) with false in G. cbv iota in G.
    destruct (scan_once false 0 _ (0 :: t)) as [v r| | |] eqn:E;
      try discriminate G.
    now apply scan_once_nul in E.
  - rewrite (skip_ws_nonws c rest W) in G.
    destruct (scan_once false 0 _ (c :: rest)) as [v r| | |] eqn:E;
      try discriminate G.
    cbn [then_scan] in G.
    pose proof (scan_once_start _ _ _ _ _ _ E) as S. cbn in S.
    repeat (destruct S as [S|S];
            [subst c; split; [lia|]; intros t ->; cbn in E;
             try discriminate E;
             injection E as _ Er; subst r; discriminate G|]).
    contradiction.
Qed.

Lemma detect_encoding_start b0 t0 :
  0 < b0 < 0x80 ->
  (forall t1, t0 <> 0 :: t1) ->
  detect_encoding (b0 :: t0) = Utf8.
Proof.
  intros B0 B1. unfold detect_encoding, starts_with.
  destruct t0 as [|b1 [|b2 [|b3 t]]];
    try (assert (b1 <> 0) by (intros ->; now apply (B1 _ eq_refl)));
    cbn [strip_prefix orb]; cmp_cases; reflexivity.
Qed.

(** Valid JSON content is read as UTF-8, to the text it encodes. *)
Lemma valid_json_text rt content s :
  utf8_decode Strict content = Ok s ->
  json_grammar s = true ->
  bytes_decode rt (detect_encoding content) content = Ok s.
Proof.
  intros U G.
  destruct (grammar_head s G) as [c [rest [-> [C R]]]].
  destruct content as [|b0 t0]; [discriminate U|].
  destruct (utf8_decode_head b0 t0 _ U) as [c' [s' [E [_ A]]]].
  injection E as <- <-. destruct (A (proj2 C)) as [-> T].
  rewrite detect_encoding_start; [| exact C |].
  - cbn [bytes_decode]. now apply (utf8_strict_pass _ _ _ (le_n _)).
  - intros t1 ->.
    destruct (utf8_decode_head 0 t1 _ T) as [c1 [s1 [-> [Z _]]]].
    rewrite (Z eq_refl) in R. now apply (R s1).
Qed.

(** Valid JSON content is never refused as malformed. *)
Lemma valid_json_loads lim rt content :
  valid_json content ->
  (exists v, json_loads lim rt content = Ok v)
  \/ json_loads lim rt content = Raise RecursionError
  \/ json_loads lim rt content = Raise ValueError.
Proof.
  intros [s [U G]]. unfold json_loads.
  rewrite (valid_json_text rt content s U G). cbn [rbind].
  now apply grammar_loads_text.
Qed.

Lemma parse_error_invalid lim rt content e :
  json_loads lim rt content = Raise e -> parse_error e -> ~ valid_json content.
Proof.
  intros J P V.
  destruct (valid_json_loads lim rt content V) as [[v L]|[L|L]];
    rewrite L in J; [discriminate J| |];
    injection J as <-; destruct P as [P|P]; discriminate P.
Qed.

(** ** Writing to standard output *)

Lemma writable_b_true s : writable_b s = true <-> writable s.
Proof.
  unfold writable_b, writable, scalar. rewrite forallb_forall, Forall_forall.
  split; intros H c Hc; specialize (H c Hc).
  - apply andb_true_iff in H as [L S]. apply N.ltb_lt in L.
    apply negb_true_iff in S. now split.
  - destruct H as [L S]. apply andb_true_iff. split; [now apply N.ltb_lt|].
    now apply negb_true_iff.
Qed.

Lemma utf8_encode_cp_ok_scalar c bs : utf8_encode_cp c = Ok bs -> scalar c.
Proof.
  unfold utf8_encode_cp, scalar.
  destruct (N.ltb_spec c 0x80).
  { intros _. split; [lia|]. unfold is_surrogate. cmp_cases; reflexivity. }
  destruct (N.ltb_spec c 0x800).
  { intros _. split; [lia|]. unfold is_surrogate. cmp_cases; reflexivity. }
  destruct (N.ltb_spec c 0x10000).
  { destruct (is_surrogate c); [discriminate|]. intros _. split; [lia|reflexivity]. }
  destruct (N.ltb_spec c 0x110000); [|discriminate].
  intros _. split; [lia|]. unfold is_surrogate. cmp_cases; reflexivity.
Qed.

Lemma utf8_encode_ok_scalar x : forall bs,
  utf8_encode x = Ok bs -> Forall scalar x.
Proof.
  induction x as [|c t IH]; intros bs; [constructor|].
  cbn [utf8_encode]. destruct (utf8_encode_cp c) as [b|] eqn:E; [|discriminate].
  cbn [rbind]. destruct (utf8_encode t) as [r|]; [|discriminate].
  intros _. constructor.
  - eapply utf8_encode_cp_ok_scalar; eassumption.
  - now apply (IH r).
Qed.

Lemma print_ok s p :
  writable_b s = true ->
  print s p
  = (Ok tt, {| stdout := stdout p ++ s ++ [0x0A]; requests := requests p |}).
Proof.
  intros H. apply writable_b_true in H.
  destruct (utf8_encode_scalar s H) as [bs E]. unfold print. now rewrite E.
Qed.

Lemma print_raises s p :
  writable_b s = false -> print s p = (Raise UnicodeEncodeError, p).
Proof.
  intros H. unfold print. destruct (utf8_encode s) as [bs|e] eqn:E.
  - apply utf8_encode_ok_scalar in E. apply writable_b_true in E. congruence.
  - now rewrite (utf8_encode_raises _ _ E).
Qed.

Lemma lit_writable s : writable (lit s).
Proof.
  unfold writable, lit. apply Forall_forall. intros c Hc.
  apply in_map_iff in Hc as [a [<- _]].
  pose proof (N_ascii_bounded a) as B. split; [lia|].
  unfold is_surrogate. cmp_cases; reflexivity.
Qed.

Lemma writable_app a b : writable a -> writable b -> writable (a ++ b).
Proof. unfold writable. intros. now apply Forall_app. Qed.

Lemma written_all lines :
  forallb writable_b lines = true -> written lines = lines.
Proof.
  induction lines as [|l t IH]; [reflexivity|]. cbn [forallb written].
  intros [Hl Ht]%andb_true_iff. rewrite Hl. now rewrite IH.
Qed.

Lemma all_writable lines :
  forallb writable_b lines = true <-> Forall writable lines.
Proof.
  rewrite forallb_forall, Forall_forall.
  split; intros H l Hl; apply writable_b_true; now apply H.
Qed.


(** ** What [str()] gives can always be written *)

Lemma scalar_ascii c : c < 0x80 -> scalar c.
Proof. intros H. now apply ascii_scalar. Qed.

Lemma hex_lower_scalar d : d < 16 -> scalar (hex_lower d).
Proof.
  intros H. apply scalar_ascii. unfold hex_lower.
  destruct (N.ltb_spec d 10); lia.
Qed.

Lemma hex_fixed_writable w : forall c, writable (hex_fixed w c).
Proof.
  unfold writable. induction w as [|w IH]; intros c; cbn [hex_fixed];
    [constructor|].
  apply Forall_app. split; [apply IH|].
  constructor; [|constructor]. apply hex_lower_scalar. divmod.
Qed.

Lemma repr_char_writable rt q c :
  q < 0x80 -> writable (repr_char rt q c).
Proof.
  intros Hq. unfold repr_char.
  destruct ((c =? q) || (c =? 0x5C)) eqn:E1.
  { apply orb_true_iff in E1.
    constructor; [now apply scalar_ascii|]. constructor; [|constructor].
    destruct E1 as [E|E]; apply N.eqb_eq in E; subst; now apply scalar_ascii. }
  destruct (c =? 0x09); [apply lit_writable|].
  destruct (c =? 0x0A); [apply lit_writable|].
  destruct (c =? 0x0D); [apply lit_writable|].
  destruct ((c <? 0x20) || (c =? 0x7F));
    [apply writable_app; [apply lit_writable|apply hex_fixed_writable]|].
  destruct (N.ltb_spec c 0x7F).
  { constructor; [apply scalar_ascii; lia|constructor]. }
  destruct (isprintable rt c && (c <? 0x110000) && negb (is_surrogate c)) eqn:P.
  { apply andb_true_iff in P as [P S]. apply andb_true_iff in P as [_ L].
    apply N.ltb_lt in L. apply negb_true_iff in S.
    constructor; [now split|constructor]. }
  destruct (c <=? 0xFF);
    [apply writable_app; [apply lit_writable|apply hex_fixed_writable]|].
  destruct (c <=? 0xFFFF);
    apply writable_app; first [apply lit_writable|apply hex_fixed_writable].
Qed.

Lemma repr_str_writable rt s : writable (repr_str rt s).
Proof.
  unfold repr_str.
  set (q := if existsb (N.eqb 0x27) s && negb (existsb (N.eqb 0x22) s)
            then 0x22 else 0x27).
  assert (Hq : q < 0x80) by (subst q; destruct (_ && _); lia).
  clearbody q.
  constructor; [now apply scalar_ascii|].
  apply Forall_app. split.
  - induction s as [|c t IH]; [constructor|]. cbn [flat_map].
    apply Forall_app. split; [now apply repr_char_writable|exact IH].
  - constructor; [now apply scalar_ascii|constructor].
Qed.

Lemma join_writable sep parts :
  writable sep -> Forall writable parts -> writable (join sep parts).
Proof.
  intros Hs. induction 1 as [|p t Hp Ht IH]; [constructor|].
  cbn [join]. destruct t as [|p' t']; [exact Hp|].
  apply writable_app; [exact Hp|]. apply writable_app; [exact Hs|exact IH].
Qed.

Lemma py_repr_writable rt : forall v, writable (py_repr rt v).
Proof.
  fix IH 1. intros [|[|]|z|l|s|items|pairs]; cbn [py_repr];
    try apply lit_writable.
  - apply repr_str_writable.
  - apply writable_app; [apply lit_writable|].
    apply writable_app; [|apply lit_writable].
    apply join_writable; [apply lit_writable|].
    induction items as [|x t IHt]; [constructor|].
    cbn [map]. constructor; [apply IH|exact IHt].
  - apply writable_app; [apply lit_writable|].
    apply writable_app; [|apply lit_writable].
    apply join_writable; [apply lit_writable|].
    induction pairs as [|[k x] t IHt]; [constructor|].
    cbn [map fst snd]. constructor; [|exact IHt].
    apply writable_app; [apply repr_str_writable|].
    apply writable_app; [apply lit_writable|apply IH].
Qed.

(** ** The result loop *)

Lemma unlines_four a b c d :
  unlines [a; b; c; d]
  = (a ++ [0x0A]) ++ (b ++ [0x0A]) ++ (c ++ [0x0A]) ++ d ++ [0x0A].
Proof. unfold unlines. cbn [flat_map]. now rewrite app_nil_r. Qed.

Lemma encoded_query_angular : encoded_query = Ok (lit "angular").
Proof. reflexivity. Qed.

Section ResultLoop.

Variable lim : limits.
Variable rt : runtime.

(** The body of the loop: what line 22 raises, with nothing printed; or
    the four lines; or the lines before the first that cannot be written,
    and the error of that one. *)
Lemma project_value r v p :
  version_of lim rt r = Ok v ->
  project lim rt r p
  = if forallb writable_b (four_lines r (py_str rt v))
    then (Ok tt, {| stdout := stdout p ++ unlines (four_lines r (py_str rt v));
                    requests := requests p |})
    else (Raise UnicodeEncodeError,
          {| stdout := stdout p
                       ++ unlines (written (four_lines r (py_str rt v)));
             requests := requests p |}).
Proof.
  unfold version_of, project, bind, lift.
  destruct (decoded_content r) as [content|]; [|discriminate]. cbn [rbind].
  destruct (json_loads lim rt content) as [parsed|]; [|discriminate].
  cbn [rbind].
  destruct (getitem parsed _) as [deps|]; [|discriminate]. cbn [rbind].
  intros ->. unfold four_lines.
  set (l1 := lit "Repository: " ++ full_name (repository r)).
  set (l2 := lit "File path: " ++ path r).
  set (l3 := lit "URL: " ++ html_url r).
  set (l4 := lit "Angular JS: " ++ py_str rt v).
  cbn [forallb written].
  destruct (writable_b l1) eqn:W1; cbn [andb];
    [rewrite (print_ok _ _ W1)
    |rewrite (print_raises _ _ W1); cbn [unlines flat_map];
     rewrite app_nil_r; now destruct p].
  destruct (writable_b l2) eqn:W2; cbn [andb];
    [rewrite (print_ok _ _ W2)
    |rewrite (print_raises _ _ W2); cbn [unlines flat_map stdout requests];
     now rewrite app_nil_r].
  destruct (writable_b l3) eqn:W3; cbn [andb];
    [rewrite (print_ok _ _ W3)
    |rewrite (print_raises _ _ W3); cbn [unlines flat_map stdout requests];
     now rewrite app_nil_r, <- !app_assoc].
  destruct (writable_b l4) eqn:W4; cbn [andb];
    [rewrite (print_ok _ _ W4)
    |rewrite (print_raises _ _ W4); cbn [unlines flat_map stdout requests];
     now rewrite app_nil_r, <- !app_assoc].
  cbn [stdout requests]. rewrite unlines_four.
  now rewrite <- !app_assoc.
Qed.

Lemma project_ok r v p :
  version_of lim rt r = Ok v ->
  Forall writable (four_lines r (py_str rt v)) ->
  project lim rt r p
  = (Ok tt, {| stdout := stdout p ++ unlines (four_lines r (py_str rt v));
               requests := requests p |}).
Proof.
  intros V W. rewrite (project_value r v p V).
  now rewrite (proj2 (all_writable _) W).
Qed.

Lemma project_raises r e p :
  version_of lim rt r = Raise e -> project lim rt r p = (Raise e, p).
Proof.
  unfold version_of, project, bind, lift.
  destruct (decoded_content r) as [content|]; cbn [rbind]; [|now intros [= ->]].
  destruct (json_loads lim rt content) as [parsed|]; cbn [rbind];
    [|now intros [= ->]].
  destruct (getitem parsed _) as [deps|]; cbn [rbind]; [|now intros [= ->]].
  now intros ->.
Qed.

Lemma project_requests r p :
  requests (snd (project lim rt r p)) = requests p.
Proof.
  destruct (version_of lim rt r) as [v|e] eqn:V.
  - rewrite (project_value r v p V).
    now destruct (forallb writable_b (four_lines r (py_str rt v))).
  - now rewrite (project_raises r e p V).
Qed.

Lemma project_printable r p :
  printable lim rt r ->
  project lim rt r p
  = (Ok tt, {| stdout := stdout p ++ report lim rt r; requests := requests p |}).
Proof.
  intros [v [V W]]. rewrite (project_ok r v p V W). unfold report.
  now rewrite V.
Qed.

(** A record the body ends normally on is printed in full. *)
Lemma project_normal r p :
  fst (project lim rt r p) = Ok tt -> printable lim rt r.
Proof.
  destruct (version_of lim rt r) as [v|e] eqn:V.
  - rewrite (project_value r v p V).
    destruct (forallb writable_b (four_lines r (py_str rt v))) eqn:W;
      [|discriminate].
    intros _. exists v. split; [exact V|]. now apply all_writable.
  - rewrite (project_raises r e p V). discriminate.
Qed.

Lemma for_each_prefix pre : forall tail p,
  Forall (printable lim rt) pre ->
  for_each (yield_all pre tail) (project lim rt) p
  = for_each tail (project lim rt)
      {| stdout := stdout p ++ flat_map (report lim rt) pre;
         requests := requests p |}.
Proof.
  induction pre as [|r pre IH]; intros tail p H.
  - cbn. rewrite app_nil_r. now destruct p.
  - inversion H as [|? ? Hr Hpre]; subst.
    cbn [yield_all fold_right for_each]. unfold bind at 1.
    rewrite (project_printable r p Hr). fold (yield_all pre tail).
    rewrite (IH tail _ Hpre). cbn [stdout requests flat_map].
    now rewrite <- app_assoc.
Qed.

Lemma for_each_requests rs : forall p,
  requests (snd (for_each rs (project lim rt) p)) = requests p.
Proof.
  induction rs as [|r rest IH|e]; intros p; cbn [for_each]; try reflexivity.
  unfold bind. pose proof (project_requests r p) as R.
  destruct (project lim rt r p) as [[[]|e] p']; cbn [snd] in R |- *.
  - now rewrite IH.
  - exact R.
Qed.

(** A loop that fails does so at one of the places of [fails_after],
    with the output that goes with it. *)
Lemma for_each_failure rs : forall p e,
  fst (for_each rs (project lim rt) p) = Raise e ->
  exists out,
    fails_after lim rt (Ok rs) out e
    /\ stdout (snd (for_each rs (project lim rt) p)) = stdout p ++ out.
Proof.
  induction rs as [|r rest IH|e0]; intros p e; cbn [for_each].
  - discriminate.
  - unfold bind. destruct (version_of lim rt r) as [v|e1] eqn:V.
    + rewrite (project_value r v p V).
      destruct (forallb writable_b (four_lines r (py_str rt v))) eqn:W.
      * intros H. destruct (IH _ _ H) as [out [F O]].
        assert (P : printable lim rt r)
          by (exists v; split; [exact V|now apply all_writable]).
        exists (report lim rt r ++ out). split.
        -- inversion F as [|pre' e' Hp E|pre' r' post e' Hp Hr E
                          |pre' r' post v' Hp Hr Hw E]; subst.
           ++ apply (iteration_fails lim rt (r :: pre') e). now constructor.
           ++ apply (record_fails lim rt (r :: pre') r' post e);
                [now constructor|assumption].
           ++ rewrite app_assoc.
              apply (print_fails lim rt (r :: pre') r' post v');
                [now constructor|assumption|assumption].
        -- rewrite O. cbn [stdout]. unfold report. rewrite V.
           now rewrite <- app_assoc.
      * cbn [fst snd stdout]. intros [= <-].
        exists (unlines (written (four_lines r (py_str rt v)))). split.
        -- apply (print_fails lim rt [] r rest v); [constructor|exact V|exact W].
        -- reflexivity.
    + rewrite (project_raises r e1 p V). cbn [fst snd]. intros [= <-].
      exists []. split.
      * now apply (record_fails lim rt [] r rest e1).
      * now rewrite app_nil_r.
  - cbn. intros [= <-]. exists []. split.
    + now apply (iteration_fails lim rt [] e0).
    + now rewrite app_nil_r.
Qed.

Variable g : service.

Lemma script_unfold term enc :
  quote term = Ok enc ->
  script lim rt g term {| stdout := []; requests := [] |}
  = match g (sent_request enc) with
    | Ok found =>
      for_each found (project lim rt)
        {| stdout := []; requests := [sent_request enc] |}
    | Raise e => (Raise e, {| stdout := []; requests := [sent_request enc] |})
    end.
Proof.
  intros Q. unfold script, bind, lift, search_code. rewrite Q.
  cbn [stdout requests app]. fold (sent_request enc).
  destruct (g (sent_request enc)); reflexivity.
Qed.

Lemma run_unfold :
  run lim rt g
  = match g (sent_request (lit "angular")) with
    | Ok found =>
      for_each found (project lim rt)
        {| stdout := []; requests := [sent_request (lit "angular")] |}
    | Raise e =>
      (Raise e, {| stdout := []; requests := [sent_request (lit "angular")] |})
    end.
Proof. unfold run, connector. apply script_unfold. reflexivity. Qed.

(** The run on a sequence whose first failure, if any, comes after the
    records of [pre]. *)
Lemma run_prefix pre tail :
  g (sent_request (lit "angular")) = Ok (yield_all pre tail) ->
  Forall (printable lim rt) pre ->
  run lim rt g
  = for_each tail (project lim rt)
      {| stdout := flat_map (report lim rt) pre;
         requests := [sent_request (lit "angular")] |}.
Proof.
  intros G H. rewrite run_unfold, G. now rewrite for_each_prefix.
Qed.

(** ** The claims about the result loop *)

Lemma example_record_version :
  version_of lim rt example_record = Ok (VStr (lit "1.2.3")).
Proof.
  unfold version_of, example_record, decoded_content. cbn [rbind].
  unfold json_loads.
  change (detect_encoding example_content) with Utf8.
  change (bytes_decode rt Utf8 example_content)
    with (utf8_decode SurrogatePass example_content).
  replace (utf8_decode SurrogatePass example_content)
    with (Ok example_content) by (vm_compute; reflexivity).
  cbn [rbind]. unfold loads_text, decode, nesting_limit.
  destruct (spare_depth lim); reflexivity.
Qed.

Lemma example_record_printable : printable lim rt example_record.
Proof.
  exists (VStr (lit "1.2.3")). split; [exact example_record_version|].
  apply all_writable. reflexivity.
Qed.

(** C1.  When the search yields exactly one match record, with repository
    full name [owner/repo], path [package.json], the given URL and the
    content [{"dependencies": {"angular": "1.2.3"}}], the run ends normally
    and standard output holds exactly the four lines of that record, in
    order and nothing else. *)
Theorem single_match_output :
  g (sent_request (lit "angular")) = Ok (Yield example_record Exhausted) ->
  run lim rt g
  = (Ok tt,
     {| stdout := unlines [ lit "Repository: owner/repo";
                            lit "File path: package.json";
                            lit "URL: https://example/owner/repo/package.json";
                            lit "Angular JS: 1.2.3" ];
        requests := [sent_request (lit "angular")] |}).
Proof.
  intros G.
  rewrite (run_prefix [example_record] Exhausted G).
  - cbn [for_each ret flat_map]. unfold report.
    rewrite example_record_version. rewrite app_nil_r. reflexivity.
  - constructor; [exact example_record_printable|constructor].
Qed.

(** C2.  When the search call succeeds and yields no match record, the run
    prints nothing and ends normally, with exit code 0. *)
Theorem no_match_no_output :
  g (sent_request (lit "angular")) = Ok Exhausted ->
  run lim rt g
  = (Ok tt, {| stdout := []; requests := [sent_request (lit "angular")] |})
  /\ exit_code (fst (run lim rt g)) = 0%Z.
Proof.
  intros G. rewrite run_unfold, G. split; reflexivity.
Qed.


(** C4, as the code has it.  When [json.loads] returns, for the content of
    a match record, an object without a [dependencies] key, or with a
    [dependencies] object that has no [angular] key, the run ends with a
    [KeyError] for the missing key uncaught and prints none of the four
    lines of that record; the records before it, printed in full, keep
    theirs. *)
Theorem missing_key_aborts pre r post content d :
  g (sent_request (lit "angular")) = Ok (yield_all pre (Yield r post)) ->
  Forall (printable lim rt) pre ->
  decoded_content r = Ok content ->
  json_loads lim rt content = Ok (VDict d) ->
  dict_get (lit "dependencies") d = None
  \/ (exists deps, dict_get (lit "dependencies") d = Some (VDict deps)
                   /\ dict_get (lit "angular") deps = None) ->
  exists key,
    (key = lit "dependencies" \/ key = lit "angular")
    /\ run lim rt g
       = (Raise (KeyError key),
          {| stdout := flat_map (report lim rt) pre;
             requests := [sent_request (lit "angular")] |})
    /\ exit_code (fst (run lim rt g)) = 1%Z.
Proof.
  intros G P C J M.
  assert (V : exists key, (key = lit "dependencies" \/ key = lit "angular")
                          /\ version_of lim rt r = Raise (KeyError key)).
  { unfold version_of. rewrite C. cbn [rbind]. rewrite J. cbn [rbind getitem].
    destruct M as [M|[deps [M1 M2]]].
    - exists (lit "dependencies"). rewrite M. split; [now left|reflexivity].
    - exists (lit "angular"). rewrite M1. cbn [rbind getitem]. rewrite M2.
      split; [now right|reflexivity]. }
  destruct V as [key [K V]]. exists key. split; [exact K|].
  rewrite (run_prefix pre _ G P). cbn [for_each]. unfold bind.
  rewrite (project_raises r _ _ V). split; reflexivity.
Qed.

(** C5.  Whatever step of a run raises first (the search call, the
    iteration, line 22 of the body or one of its prints), the exception
    reaches the process boundary: the run ends with it, with exit code 1
    and with what was written before it on standard output; when it is the
    search call that raises, nothing is printed.  Conversely a run fails
    only with an exception raised by one of these steps, after the output
    that goes with it. *)
Theorem failures_propagate out e :
  fails_after lim rt (g (sent_request (lit "angular"))) out e ->
  run lim rt g
  = (Raise e, {| stdout := out;
                 requests := [sent_request (lit "angular")] |})
  /\ exit_code (fst (run lim rt g)) = 1%Z
  /\ (forall e', g (sent_request (lit "angular")) = Raise e' ->
                 e' = e /\ stdout (snd (run lim rt g)) = [])
  /\ (forall e', fst (run lim rt g) = Raise e' ->
                 fails_after lim rt (g (sent_request (lit "angular")))
                             (stdout (snd (run lim rt g))) e').
Proof.
  intros F.
  assert (R : run lim rt g
              = (Raise e, {| stdout := out;
                             requests := [sent_request (lit "angular")] |})).
  { inversion F as [e0 G|pre0 e0 P G|pre0 r post e0 P V G
                   |pre0 r post v P V W G]; subst.
    - rewrite run_unfold, <- G. reflexivity.
    - symmetry in G. rewrite (run_prefix pre0 _ G P). reflexivity.
    - symmetry in G. rewrite (run_prefix pre0 _ G P). cbn [for_each].
      unfold bind. now rewrite (project_raises r e _ V).
    - symmetry in G. rewrite (run_prefix pre0 _ G P). cbn [for_each].
      unfold bind. rewrite (project_value r v _ V), W. reflexivity. }
  split; [exact R|]. split; [now rewrite R|]. split.
  - intros e' G. rewrite run_unfold, G in R. injection R as E1 _.
    split; [exact E1|]. rewrite run_unfold, G. reflexivity.
  - intros e' H. rewrite run_unfold in H |- *.
    destruct (g (sent_request (lit "angular"))) as [found|e0].
    + apply for_each_failure in H as [out' [F' O]]. rewrite O. exact F'.
    + cbn in H. injection H as ->. constructor.
Qed.

(** C9.  A run makes exactly one search call, whatever the service
    answers: its query is the encoded term, the sort key is [indexed], the
    order [asc], the highlight flag is set and the qualifiers are exactly
    [filename] and [repo] with the values of the script. *)
Theorem one_search_request :
  requests (snd (run lim rt g))
  = [ {| rq_query := lit "angular";
         rq_sort := lit "indexed";
         rq_order := lit "asc";
         rq_highlight := true;
         rq_qualifiers :=
           [ (lit "filename", lit "package.json");
             (lit "repo", lit "gothinkster/angularjs-realworld-example-app") ] |} ]
  /\ encoded_query = Ok (lit "angular").
Proof.
  split; [|reflexivity]. rewrite run_unfold.
  destruct (g (sent_request (lit "angular"))) as [found|e]; [|reflexivity].
  now rewrite for_each_requests.
Qed.

(** C10, as the code has it.  When [json.loads] accepts the content of a
    record, the [angular] entry of its [dependencies] exists and is not a
    string, and the repository name, the path and the URL of the record can
    be written to standard output, the record is printed all the same: the
    run does not fail on it, and its fourth line carries the value's
    [str()].  That conversion is the one of the interpreter: decimal digits
    for an integer, [None], [True] and [False], brackets and braces with
    [", "] between the items and [": "] after a key, strings inside them
    quoted and escaped. *)
Theorem non_string_version_printed pre r content parsed dependencies v :
  g (sent_request (lit "angular")) = Ok (yield_all pre (Yield r Exhausted)) ->
  Forall (printable lim rt) pre ->
  decoded_content r = Ok content ->
  json_loads lim rt content = Ok parsed ->
  getitem parsed (lit "dependencies") = Ok dependencies ->
  getitem dependencies (lit "angular") = Ok v ->
  is_str v = false ->
  writable (full_name (repository r)) ->
  writable (path r) ->
  writable (html_url r) ->
  run lim rt g
  = (Ok tt,
     {| stdout := flat_map (report lim rt) pre
                  ++ unlines [ lit "Repository: " ++ full_name (repository r);
                               lit "File path: " ++ path r;
                               lit "URL: " ++ html_url r;
                               lit "Angular JS: " ++ py_repr rt v ];
        requests := [sent_request (lit "angular")] |})
  /\ exit_code (fst (run lim rt g)) = 0%Z
  /\ (forall z, py_repr rt (VInt z)
                = lit (DecimalString.NilZero.string_of_int (Z.to_int z)))
  /\ (forall items,
        py_repr rt (VList items)
        = lit "[" ++ join (lit ", ") (map (py_repr rt) items) ++ lit "]")
  /\ (forall pairs,
        py_repr rt (VDict pairs)
        = lit "{"
          ++ join (lit ", ")
                  (map (fun kv => repr_str rt (fst kv) ++ lit ": "
                                  ++ py_repr rt (snd kv)) pairs)
          ++ lit "}")
  /\ py_repr rt (VList [VNone; VBool true; VBool false; VInt (-20);
                        VStr (lit "1.2.3")])
     = lit "[None, True, False, -20, '1.2.3']"
  /\ py_repr rt (VList [VStr [0x5C; 0x0A; 0x09; 0x01; 0x27]])
     = lit "[" ++ json_string "\\\n\t\x01'" ++ lit "]"
  /\ py_repr rt (VDict [([0x27; 0x22], VStr [0xD800])])
     = lit "{'\'" ++ [0x22] ++ lit "': '\ud800'}".
Proof.
  intros G P C J D A S W1 W2 W3.
  assert (V : version_of lim rt r = Ok v).
  { unfold version_of. rewrite C. cbn [rbind]. rewrite J. cbn [rbind].
    rewrite D. cbn [rbind]. exact A. }
  assert (T : py_str rt v = py_repr rt v)
    by (destruct v; try reflexivity; discriminate).
  assert (W : Forall writable (four_lines r (py_str rt v))).
  { rewrite T. unfold four_lines.
    repeat (apply Forall_cons; [apply writable_app; [apply lit_writable|]|]);
      [assumption|assumption|assumption|apply py_repr_writable|constructor]. }
  rewrite (run_prefix pre _ G P). cbn [for_each]. unfold bind.
  rewrite (project_ok r v _ V W). cbn [ret stdout requests fst].
  unfold four_lines. rewrite T.
  repeat split; try reflexivity.
  cbn. destruct (isprintable rt 55296); reflexivity.
Qed.

End ResultLoop.

(** *** Concrete runs *)

Lemma single_match_output_witness :
  let g : service := fun _ => Ok (Yield example_record Exhausted) in
  g (sent_request (lit "angular")) = Ok (Yield example_record Exhausted)
  /\ stdout (snd (run default_limits plain_runtime g))
     = unlines [ lit "Repository: owner/repo";
                 lit "File path: package.json";
                 lit "URL: https://example/owner/repo/package.json";
                 lit "Angular JS: 1.2.3" ].
Proof.
  intros g. split; [reflexivity|].
  rewrite (single_match_output default_limits plain_runtime g); reflexivity.
Defined.

Lemma no_match_no_output_witness :
  let g : service := fun _ => Ok Exhausted in
  g (sent_request (lit "angular")) = Ok Exhausted
  /\ stdout (snd (run default_limits plain_runtime g)) = []
  /\ exit_code (fst (run default_limits plain_runtime g)) = 0%Z.
Proof.
  intros g.
  destruct (no_match_no_output default_limits plain_runtime g eq_refl) as [R E].
  split; [reflexivity|]. split; [now rewrite R|exact E].
Defined.



Lemma missing_key_aborts_witness :
  let content := lit "{" ++ json_string "dependencies" ++ lit ": {"
                 ++ json_string "react" ++ lit ": " ++ json_string "18.0.0"
                 ++ lit "}}" in
  let r := {| repository := {| full_name := lit "owner/other" |};
              path := lit "package.json";
              html_url := lit "https://example/owner/other/package.json";
              decoded_content := Ok content |} in
  let g : service := fun _ => Ok (Yield r Exhausted) in
  exists key,
    (key = lit "dependencies" \/ key = lit "angular")
    /\ run default_limits plain_runtime g
       = (Raise (KeyError key),
          {| stdout := []; requests := [sent_request (lit "angular")] |})
    /\ exit_code (fst (run default_limits plain_runtime g)) = 1%Z.
Proof.
  intros content r g.
  apply (missing_key_aborts default_limits plain_runtime g [] r Exhausted content
           [(lit "dependencies", VDict [(lit "react", VStr (lit "18.0.0"))])]).
  - reflexivity.
  - constructor.
  - reflexivity.
  - vm_compute. reflexivity.
  - right. exists [(lit "react", VStr (lit "18.0.0"))]. split; reflexivity.
Defined.

(** Content that is valid JSON and has no [dependencies] key, but holds an
    integer of 4301 digits: [json.loads] raises the [ValueError] of the
    digit limit before any key is looked up. *)
Lemma missing_key_not_always_key_error :
  let content := lit "{" ++ json_string "name" ++ lit ": "
                 ++ repeat 0x31 4301 ++ lit "}" in
  let r := {| repository := {| full_name := lit "owner/other" |};
              path := lit "package.json";
              html_url := lit "https://example/owner/other/package.json";
              decoded_content := Ok content |} in
  valid_json content
  /\ (exists d, decode_within false 0 (List.length content) content
                = Scanned (VDict d) []
                /\ dict_get (lit "dependencies") d = None)
  /\ run default_limits plain_runtime (fun _ => Ok (Yield r Exhausted))
     = (Raise ValueError,
        {| stdout := []; requests := [sent_request (lit "angular")] |}).
Proof.
  intros content r. split; [|split].
  - exists content. split; vm_compute; reflexivity.
  - exists [(lit "name", VInt (parse_int (repeat 0x31 4301)))].
    split; vm_compute; reflexivity.
  - vm_compute. reflexivity.
Qed.

Lemma failures_propagate_witness :
  let g : service := fun _ => Raise (ServiceError 401) in
  fails_after default_limits plain_runtime (g (sent_request (lit "angular")))
              [] (ServiceError 401)
  /\ run default_limits plain_runtime g
     = (Raise (ServiceError 401),
        {| stdout := []; requests := [sent_request (lit "angular")] |})
  /\ exit_code (fst (run default_limits plain_runtime g)) = 1%Z.
Proof.
  intros g.
  assert (F : fails_after default_limits plain_runtime
                (g (sent_request (lit "angular"))) [] (ServiceError 401))
    by constructor.
  destruct (failures_propagate default_limits plain_runtime g []
              (ServiceError 401) F) as [R [E _]].
  split; [exact F|]. split; [exact R|exact E].
Defined.

(** A version that is a number of 4301 digits is valid JSON, yet the run
    ends with the [ValueError] of the digit limit and prints nothing; and a
    record whose path holds a lone surrogate ends the run with a
    [UnicodeEncodeError] after its first line, although its version, the
    number 12, is valid JSON too. *)
Lemma non_string_version_can_fail :
  let long := lit "{" ++ json_string "dependencies" ++ lit ": {"
              ++ json_string "angular" ++ lit ": " ++ repeat 0x31 4301
              ++ lit "}}" in
  let short := lit "{" ++ json_string "dependencies" ++ lit ": {"
               ++ json_string "angular" ++ lit ": 12}}" in
  let r1 := {| repository := {| full_name := lit "owner/repo" |};
               path := lit "package.json";
               html_url := lit "https://example/owner/repo/package.json";
               decoded_content := Ok long |} in
  let r2 := {| repository := {| full_name := lit "owner/repo" |};
               path := [0xD800];
               html_url := lit "https://example/owner/repo/package.json";
               decoded_content := Ok short |} in
  (valid_json long
   /\ run default_limits plain_runtime (fun _ => Ok (Yield r1 Exhausted))
      = (Raise ValueError,
         {| stdout := []; requests := [sent_request (lit "angular")] |}))
  /\ (valid_json short
      /\ version_of default_limits plain_runtime r2 = Ok (VInt 12)
      /\ run default_limits plain_runtime (fun _ => Ok (Yield r2 Exhausted))
         = (Raise UnicodeEncodeError,
            {| stdout := unlines [lit "Repository: owner/repo"];
               requests := [sent_request (lit "angular")] |})).
Proof.
  intros long short r1 r2. split; [split|split; [|split]].
  - exists long. split; vm_compute; reflexivity.
  - vm_compute. reflexivity.
  - exists short. split; vm_compute; reflexivity.
  - vm_compute. reflexivity.
  - vm_compute. reflexivity.
Qed.

Lemma non_string_version_printed_witness :
  let content := lit "{" ++ json_string "dependencies" ++ lit ": {"
                 ++ json_string "angular" ++ lit ": [1, {"
                 ++ json_string "next" ++ lit ": null}, -20]}}" in
  let r := {| repository := {| full_name := lit "owner/repo" |};
              path := lit "package.json";
              html_url := lit "https://example/owner/repo/package.json";
              decoded_content := Ok content |} in
  let g : service := fun _ => Ok (Yield r Exhausted) in
  run default_limits plain_runtime g
  = (Ok tt,
     {| stdout := unlines [ lit "Repository: owner/repo";
                            lit "File path: package.json";
                            lit "URL: https://example/owner/repo/package.json";
                            lit "Angular JS: [1, {'next': None}, -20]" ];
        requests := [sent_request (lit "angular")] |})
  /\ exit_code (fst (run default_limits plain_runtime g)) = 0%Z.
Proof.
  intros content r g.
  destruct (non_string_version_printed default_limits plain_runtime g [] r content
           (VDict [(lit "dependencies",
                    VDict [(lit "angular",
                            VList [VInt 1; VDict [(lit "next", VNone)]; VInt (-20)])])])
           (VDict [(lit "angular",
                    VList [VInt 1; VDict [(lit "next", VNone)]; VInt (-20)])])
           (VList [VInt 1; VDict [(lit "next", VNone)]; VInt (-20)]))
    as [R [E _]].
  - reflexivity.
  - constructor.
  - reflexivity.
  - vm_compute. reflexivity.
  - reflexivity.
  - reflexivity.
  - reflexivity.
  - apply lit_writable.
  - apply lit_writable.
  - apply lit_writable.
  - split; [exact R|exact E].
Defined.

(** ** The claims about the query encoding *)

Lemma alnum_safe c : is_alnum c = true -> is_safe default_safe c = true.
Proof.
  unfold is_alnum, is_safe, always_safe. intros ->. reflexivity.
Qed.

Lemma quote_one_safe c : is_safe default_safe c = true -> quote [c] = Ok [c].
Proof.
  intros S. apply quote_safe_identity. cbn [forallb]. now rewrite S.
Qed.

(** C6, as the code has it.  [quote] turns every reserved character but
    [/] into its percent escape and leaves [/] (its default [safe]
    argument) and the ASCII letters and digits as they are, at any place of
    the string, since it works character by character; and on every string
    of Unicode scalar values [unquote] undoes it. *)
Theorem quote_reserved_alnum_roundtrip :
  (forall c, In c reserved -> c <> 0x2F -> quote [c] = Ok (percent c))
  /\ quote [0x2F] = Ok [0x2F]
  /\ (forall c, is_alnum c = true -> quote [c] = Ok [c])
  /\ (forall x y ex ey,
        quote x = Ok ex -> quote y = Ok ey -> quote (x ++ y) = Ok (ex ++ ey))
  /\ (forall x, Forall scalar x -> exists e, quote x = Ok e /\ unquote e = Ok x).
Proof.
  split; [|split; [|split; [|split]]].
  - intros c H N. unfold reserved in H. cbn in H.
    repeat (destruct H as [<-|H]; [try reflexivity; now contradiction N|]).
    contradiction.
  - reflexivity.
  - intros c H. now apply quote_one_safe, alnum_safe.
  - exact quote_app.
  - intros x S. destruct (quote_scalar x S) as [e [Q _]].
    exists e. split; [exact Q|]. now apply quote_unquote.
Qed.

Lemma quote_reserved_alnum_roundtrip_witness :
  quote (lit "?") = Ok (lit "%3F")
  /\ quote (lit "a") = Ok (lit "a")
  /\ quote (lit "a?") = Ok (lit "a%3F")
  /\ exists e, quote [0x61; 0x20; 0xE9; 0x20AC; 0x1F600] = Ok e
               /\ unquote e = Ok [0x61; 0x20; 0xE9; 0x20AC; 0x1F600].
Proof.
  destruct quote_reserved_alnum_roundtrip as [R [_ [A [H T]]]].
  assert (Q1 : quote (lit "?") = Ok (lit "%3F")).
  { apply (R 0x3F); [cbn; tauto|discriminate]. }
  assert (Q2 : quote (lit "a") = Ok (lit "a")) by (apply (A 0x61); reflexivity).
  split; [exact Q1|]. split; [exact Q2|]. split.
  - exact (H (lit "a") (lit "?") _ _ Q2 Q1).
  - apply T. repeat constructor; cbn; lia.
Defined.

(** The reserved character [/] is not escaped, and a lone surrogate cannot
    be encoded at all. *)
Lemma quote_leaves_slash :
  In 0x2F reserved
  /\ quote [0x2F] = Ok [0x2F]
  /\ quote [0x2F] <> Ok (percent 0x2F)
  /\ quote [0xD800] = Raise UnicodeEncodeError.
Proof.
  split; [cbn; tauto|]. split; [reflexivity|]. split; [discriminate|reflexivity].
Qed.

(** C7, as the code has it.  [quote] raises on no string of Unicode scalar
    values, and only an encoding error on a string with a lone surrogate;
    on the empty string and on a string of characters of its safe set
    (letters, digits, [_.-~] and [/]) it is the identity, and the term of
    the script, [angular], is passed through unchanged. *)
Theorem quote_safe_noop :
  (forall x, Forall scalar x -> exists e, quote x = Ok e)
  /\ (forall x e, quote x = Raise e -> e = UnicodeEncodeError /\ ~ Forall scalar x)
  /\ quote [] = Ok []
  /\ (forall x, forallb (is_safe default_safe) x = true -> quote x = Ok x)
  /\ (forall c, always_safe c = true -> is_safe default_safe c = true)
  /\ encoded_query = Ok query.
Proof.
  split; [|split; [|split; [|split; [|split]]]].
  - intros x S. destruct (quote_scalar x S) as [e [Q _]]. now exists e.
  - exact quote_raises.
  - reflexivity.
  - exact quote_safe_identity.
  - intros c H. unfold is_safe. now rewrite H.
  - reflexivity.
Qed.

Lemma quote_safe_noop_witness :
  (exists e, quote [0x61; 0x20; 0xE9] = Ok e)
  /\ quote (lit "a-b_c.d~e/f") = Ok (lit "a-b_c.d~e/f").
Proof.
  destruct quote_safe_noop as [T [_ [_ [I _]]]]. split.
  - apply T. repeat constructor; cbn; lia.
  - apply I. reflexivity.
Defined.

(** The encoding step has an error condition: a lone surrogate. *)
Lemma quote_lone_surrogate_raises :
  quote [0xD800] = Raise UnicodeEncodeError.
Proof. reflexivity. Qed.

(** C8.  The search call receives the encoded form of the term as its
    [query] argument, in the script ([encoded_query]) as for any term in
    its place: a term with a character outside the safe set reaches the
    client changed, and a client that percent-encodes its query once more
    sends a text that decodes to the encoded form, not to the term. *)
Theorem encoded_term_is_sent lim rt g term enc :
  quote term = Ok enc ->
  requests (snd (script lim rt g term {| stdout := []; requests := [] |}))
  = [sent_request enc]
  /\ rq_query (sent_request enc) = enc
  /\ (forall e, encoded_query = Ok e ->
                requests (snd (run lim rt g)) = [sent_request e])
  /\ (forallb (is_safe default_safe) term = false -> enc <> term)
  /\ exists twice, quote enc = Ok twice /\ unquote twice = Ok enc.
Proof.
  intros Q. split; [|split; [reflexivity|split; [|split]]].
  - rewrite (script_unfold lim rt g term enc Q).
    destruct (g (sent_request enc)) as [found|e]; [|reflexivity].
    now rewrite for_each_requests.
  - intros e E. unfold run, connector.
    rewrite (script_unfold lim rt g query e E).
    destruct (g (sent_request e)) as [found|e0]; [|reflexivity].
    now rewrite for_each_requests.
  - now apply quote_changes.
  - pose proof (quote_ascii _ _ Q) as A.
    assert (S : Forall scalar enc).
    { apply Forall_forall. intros c Hc. apply ascii_scalar.
      now apply (proj1 (Forall_forall _ _) A). }
    destruct (quote_scalar enc S) as [twice [Q2 _]].
    exists twice. split; [exact Q2|]. now apply quote_unquote.
Qed.

Lemma encoded_term_is_sent_witness :
  let g : service := fun _ => Ok Exhausted in
  quote (lit "a b") = Ok (lit "a%20b")
  /\ requests (snd (script default_limits plain_runtime g (lit "a b")
                      {| stdout := []; requests := [] |}))
     = [sent_request (lit "a%20b")]
  /\ lit "a%20b" <> lit "a b"
  /\ exists twice, quote (lit "a%20b") = Ok twice
                   /\ unquote twice = Ok (lit "a%20b").
Proof.
  intros g.
  destruct (encoded_term_is_sent default_limits plain_runtime g (lit "a b")
              (lit "a%20b") eq_refl)
    as [R [_ [_ [C T]]]].
  split; [reflexivity|]. split; [exact R|]. split; [|exact T].
  apply C. reflexivity.
Defined.

Example double_encoding :
  quote (lit "a b") = Ok (lit "a%20b")
  /\ quote (lit "a%20b") = Ok (lit "a%2520b")
  /\ unquote (lit "a%2520b") = Ok (lit "a%20b").
Proof. repeat split. Qed.

(** * Further properties of the script *)

(** ** The loop as a whole *)

Lemma written_short lines :
  forallb writable_b lines = false ->
  (List.length (written lines) < List.length lines)%nat.
Proof.
  induction lines as [|l t IH]; [discriminate|]. cbn [forallb written].
  destruct (writable_b l); cbn [andb List.length]; [|lia].
  intros H. specialize (IH H). lia.
Qed.

(** The output of a loop: the reports of the records before the first
    failure and, when that failure is a print, the lines of its record that
    were written before it. *)
Lemma for_each_output lim rt rs : forall p,
  exists pre tail part,
    rs = yield_all pre tail
    /\ Forall (printable lim rt) pre
    /\ stdout (snd (for_each rs (project lim rt) p))
       = stdout p ++ flat_map (report lim rt) pre ++ part
    /\ (part = []
        \/ exists r post v,
             tail = Yield r post
             /\ version_of lim rt r = Ok v
             /\ forallb writable_b (four_lines r (py_str rt v)) = false
             /\ part = unlines (written (four_lines r (py_str rt v)))
             /\ fst (for_each rs (project lim rt) p) = Raise UnicodeEncodeError).
Proof.
  induction rs as [|r rest IH|e]; intros p.
  - exists [], Exhausted, []. cbn. rewrite app_nil_r.
    repeat split; [constructor|now left].
  - cbn [for_each]. unfold bind.
    destruct (version_of lim rt r) as [v|e] eqn:V.
    + rewrite (project_value lim rt r v p V).
      destruct (forallb writable_b (four_lines r (py_str rt v))) eqn:W.
      * destruct (IH {| stdout := stdout p ++ unlines (four_lines r (py_str rt v));
                        requests := requests p |})
          as [pre [tail [part [E [P [O T]]]]]].
        exists (r :: pre), tail, part. split; [cbn; now rewrite E|].
        split; [constructor; [|assumption];
                exists v; split; [exact V|now apply all_writable]|].
        split; [|exact T].
        rewrite O. cbn [stdout flat_map]. unfold report at 2. rewrite V.
        now rewrite <- !app_assoc.
      * exists [], (Yield r rest),
               (unlines (written (four_lines r (py_str rt v)))).
        cbn [yield_all fold_right flat_map app snd fst stdout].
        repeat split; [constructor|].
        right. exists r, rest, v. repeat split; assumption.
    + rewrite (project_raises lim rt r e p V).
      exists [], (Yield r rest), []. cbn. rewrite app_nil_r.
      repeat split; [constructor|now left].
  - exists [], (Fails e), []. cbn. rewrite app_nil_r.
    repeat split; [constructor|now left].
Qed.

Lemma for_each_ok lim rt rs : forall p,
  fst (for_each rs (project lim rt) p) = Ok tt ->
  exists l, rs = yield_all l Exhausted /\ Forall (printable lim rt) l.
Proof.
  induction rs as [|r rest IH|e]; intros p.
  - intros _. exists []. split; [reflexivity|constructor].
  - cbn [for_each]. unfold bind.
    pose proof (project_normal lim rt r p) as N.
    destruct (project lim rt r p) as [[[]|e] p']; [|discriminate].
    intros H. destruct (IH _ H) as [l [E P]]. exists (r :: l).
    split; [cbn; now rewrite E|]. constructor; [now apply N|assumption].
  - discriminate.
Qed.

(** When every yielded record is printed in full and the sequence ends,
    the run ends normally and standard output is the reports of the
    records, one after the other in the order they were yielded. *)
Theorem run_all_printed lim rt g rs :
  g (sent_request (lit "angular")) = Ok (yield_all rs Exhausted) ->
  Forall (printable lim rt) rs ->
  run lim rt g
  = (Ok tt, {| stdout := flat_map (report lim rt) rs;
               requests := [sent_request (lit "angular")] |})
  /\ exit_code (fst (run lim rt g)) = 0%Z.
Proof.
  intros G P. rewrite (run_prefix lim rt g rs Exhausted G P). split; reflexivity.
Qed.

Lemma run_all_printed_witness :
  let g : service :=
    fun _ => Ok (Yield example_record (Yield example_record Exhausted)) in
  stdout (snd (run default_limits plain_runtime g))
  = unlines [ lit "Repository: owner/repo";
              lit "File path: package.json";
              lit "URL: https://example/owner/repo/package.json";
              lit "Angular JS: 1.2.3";
              lit "Repository: owner/repo";
              lit "File path: package.json";
              lit "URL: https://example/owner/repo/package.json";
              lit "Angular JS: 1.2.3" ].
Proof.
  intros g.
  pose proof (example_record_printable default_limits plain_runtime) as P.
  destruct (run_all_printed default_limits plain_runtime g
              [example_record; example_record]
              eq_refl (Forall_cons _ P (Forall_cons _ P (Forall_nil _))))
    as [R _].
  rewrite R. reflexivity.
Defined.


(** A run ends normally exactly when the search call returns a sequence
    that ends without failing and all of whose records are printed in
    full. *)
Theorem run_normal_iff lim rt g :
  fst (run lim rt g) = Ok tt
  <-> exists rs, g (sent_request (lit "angular")) = Ok (yield_all rs Exhausted)
                 /\ Forall (printable lim rt) rs.
Proof.
  split.
  - rewrite run_unfold.
    destruct (g (sent_request (lit "angular"))) as [found|e]; [|discriminate].
    intros H. destruct (for_each_ok lim rt found _ H) as [l [E P]].
    exists l. split; [now rewrite E|exact P].
  - intros [rs [G P]]. now rewrite (run_prefix lim rt g rs Exhausted G P).
Qed.

Lemma run_normal_iff_witness :
  let broken := {| repository := {| full_name := lit "owner/other" |};
                   path := [0xD800];
                   html_url := lit "https://example/owner/other/package.json";
                   decoded_content := Ok example_content |} in
  fst (run default_limits plain_runtime
         (fun _ => Ok (Yield example_record Exhausted))) = Ok tt
  /\ fst (run default_limits plain_runtime
            (fun _ => Ok (Yield broken Exhausted))) <> Ok tt.
Proof.
  intros broken. split.
  - apply (proj2 (run_normal_iff default_limits plain_runtime _)).
    exists [example_record]. split; [reflexivity|].
    constructor; [apply example_record_printable|constructor].
  - intros H. apply (proj1 (run_normal_iff default_limits plain_runtime _)) in H.
    destruct H as [rs [G P]]. destruct rs as [|r0 rs]; [discriminate G|].
    cbn in G. injection G as <- _. inversion P as [|? ? [v [Hv Hw]] _]; subst.
    vm_compute in Hv. apply Ok_inj in Hv. subst v.
    apply all_writable in Hw. vm_compute in Hw. discriminate Hw.
Defined.

(** When the content of a record parses to something that is not an
    object, or to an object whose [dependencies] entry is not an object,
    the subscript of line 22 raises [TypeError]: the run ends with it and
    prints nothing for the record. *)
Theorem non_object_aborts lim rt g pre r post content parsed :
  g (sent_request (lit "angular")) = Ok (yield_all pre (Yield r post)) ->
  Forall (printable lim rt) pre ->
  decoded_content r = Ok content ->
  json_loads lim rt content = Ok parsed ->
  is_dict parsed = false
  \/ (exists d deps, parsed = VDict d
                     /\ dict_get (lit "dependencies") d = Some deps
                     /\ is_dict deps = false) ->
  run lim rt g
  = (Raise TypeError, {| stdout := flat_map (report lim rt) pre;
                         requests := [sent_request (lit "angular")] |})
  /\ exit_code (fst (run lim rt g)) = 1%Z.
Proof.
  intros G P C J M.
  assert (V : version_of lim rt r = Raise TypeError).
  { unfold version_of. rewrite C. cbn [rbind]. rewrite J. cbn [rbind].
    destruct M as [M|[d [deps [-> [M1 M2]]]]].
    - destruct parsed; try reflexivity; discriminate.
    - cbn [getitem]. rewrite M1. cbn [rbind].
      destruct deps; try reflexivity; discriminate. }
  rewrite (run_prefix lim rt g pre _ G P). cbn [for_each]. unfold bind.
  rewrite (project_raises lim rt r _ _ V). split; reflexivity.
Qed.

Lemma non_object_aborts_witness :
  let content := lit "{" ++ json_string "dependencies" ++ lit ": ["
                 ++ json_string "angular" ++ lit "]}" in
  let r := {| repository := {| full_name := lit "owner/other" |};
              path := lit "package.json";
              html_url := lit "https://example/owner/other/package.json";
              decoded_content := Ok content |} in
  let g : service := fun _ => Ok (Yield example_record (Yield r Exhausted)) in
  run default_limits plain_runtime g
  = (Raise TypeError,
     {| stdout := report default_limits plain_runtime example_record ++ [];
        requests := [sent_request (lit "angular")] |})
  /\ exit_code (fst (run default_limits plain_runtime g)) = 1%Z.
Proof.
  intros content r g.
  apply (non_object_aborts default_limits plain_runtime g [example_record] r
           Exhausted content
           (VDict [(lit "dependencies", VList [VStr (lit "angular")])])).
  - reflexivity.
  - constructor; [apply example_record_printable|constructor].
  - reflexivity.
  - vm_compute. reflexivity.
  - right. exists [(lit "dependencies", VList [VStr (lit "angular")])],
                  (VList [VStr (lit "angular")]).
    repeat split.
Defined.

(** For a term that cannot be encoded (it holds a lone surrogate), the
    script stops at the encoding step of line 10: no search call is made
    and nothing is printed. *)
Theorem unencodable_term_sends_nothing lim rt g term :
  ~ Forall scalar term ->
  script lim rt g term {| stdout := []; requests := [] |}
  = (Raise UnicodeEncodeError, {| stdout := []; requests := [] |}).
Proof.
  intros N. unfold script, bind, lift.
  destruct (quote term) as [e|e] eqn:Q.
  - exfalso. apply N. destruct (quote_encoded _ _ Q) as [bs E].
    now apply (utf8_encode_ok_scalar term bs).
  - now destruct (quote_raises _ _ Q) as [-> _].
Qed.

Lemma unencodable_term_sends_nothing_witness :
  let g : service := fun _ => Ok (Yield example_record Exhausted) in
  script default_limits plain_runtime g [0x61; 0xD800]
         {| stdout := []; requests := [] |}
  = (Raise UnicodeEncodeError, {| stdout := []; requests := [] |}).
Proof.
  intros g. apply unencodable_term_sends_nothing.
  intros H. inversion H as [|? ? _ H1]; subst.
  inversion H1 as [|? ? [_ S] _]; subst. discriminate S.
Defined.

(** ** The encoded term *)

(** Two terms with the same encoded form are the same term. *)
Theorem quote_injective x y e :
  quote x = Ok e -> quote y = Ok e -> x = y.
Proof.
  intros Qx Qy. apply quote_unquote in Qx, Qy. congruence.
Qed.

Lemma quote_injective_witness :
  quote (lit "a b") = Ok (lit "a%20b")
  /\ forall y, quote y = Ok (lit "a%20b") -> lit "a b" = y.
Proof.
  split; [reflexivity|].
  intros y Q. exact (quote_injective (lit "a b") y (lit "a%20b") eq_refl Q).
Defined.

(** Undoing the percent escapes of the encoded term gives the UTF-8 bytes
    of the term: that is what the receiving end reads. *)
Theorem quote_carries_utf8 x e :
  quote x = Ok e -> utf8_encode x = Ok (unquote_to_bytes e).
Proof.
  intros Q. destruct (quote_encoded _ _ Q) as [bs E].
  rewrite (quote_bytewise _ _ E) in Q. apply Ok_inj in Q. subst e.
  rewrite unquote_to_bytes_quoter; [exact E|].
  eapply utf8_encode_bytes; eassumption.
Qed.

Lemma quote_carries_utf8_witness :
  quote [0x61; 0x20; 0xE9] = Ok (lit "a%20%C3%A9")
  /\ utf8_encode [0x61; 0x20; 0xE9] = Ok [0x61; 0x20; 0xC3; 0xA9].
Proof.
  split; [reflexivity|].
  exact (quote_carries_utf8 [0x61; 0x20; 0xE9] (lit "a%20%C3%A9") eq_refl).
Defined.

Lemma hexdig_upper_safe d :
  d < 16 -> is_safe default_safe (hexdig_upper d) = true.
Proof.
  intros. unfold is_safe, always_safe, hexdig_upper.
  destruct (N.ltb_spec d 10); cmp_cases; reflexivity.
Qed.

Lemma quoter_alphabet bs :
  Forall is_byte bs ->
  Forall (fun c => is_safe default_safe c = true \/ c = 0x25)
         (flat_map (quoter default_safe) bs).
Proof.
  induction 1 as [|b t Hb _ IH]; [constructor|].
  cbn [flat_map]. apply Forall_app. split; [|assumption].
  unfold quoter. destruct (is_safe default_safe b) eqn:S.
  - constructor; [now left|constructor].
  - unfold is_byte in Hb. unfold percent.
    apply Forall_cons; [now right|].
    apply Forall_cons; [left; apply hexdig_upper_safe; divmod|].
    apply Forall_cons; [left; apply hexdig_upper_safe; divmod|].
    constructor.
Qed.

(** The encoded term is made of the characters [quote] leaves alone and
    of percent signs: it holds no space, no character outside ASCII and no
    reserved character but [/]. *)
Theorem quote_alphabet x e :
  quote x = Ok e ->
  Forall (fun c => is_safe default_safe c = true \/ c = 0x25) e
  /\ Forall is_ascii e
  /\ ~ In 0x20 e
  /\ (forall c, In c e -> In c reserved -> c = 0x2F).
Proof.
  intros Q.
  assert (A : Forall (fun c => is_safe default_safe c = true \/ c = 0x25) e).
  { destruct (quote_encoded _ _ Q) as [bs E].
    rewrite (quote_bytewise _ _ E) in Q. apply Ok_inj in Q. subst e.
    apply quoter_alphabet. eapply utf8_encode_bytes; eassumption. }
  split; [exact A|]. split; [now apply (quote_ascii x)|].
  rewrite Forall_forall in A. split.
  - intros H. destruct (A _ H) as [S|S]; discriminate S.
  - intros c Hc R. specialize (A c Hc). unfold reserved in R. cbn in R.
    repeat (destruct R as [<-|R];
            [first [reflexivity | destruct A as [S|S]; discriminate S]|]).
    contradiction.
Qed.

Lemma quote_alphabet_witness :
  quote (lit "a b&c/d") = Ok (lit "a%20b%26c/d")
  /\ ~ In 0x20 (lit "a%20b%26c/d")
  /\ (forall c, In c (lit "a%20b%26c/d") -> In c reserved -> c = 0x2F).
Proof.
  destruct (quote_alphabet (lit "a b&c/d") (lit "a%20b%26c/d") eq_refl)
    as [_ [_ [S R]]].
  split; [reflexivity|]. split; [exact S|exact R].
Defined.

Lemma utf8_encode_cp_length c bs :
  utf8_encode_cp c = Ok bs -> (1 <= List.length bs <= 4)%nat.
Proof.
  unfold utf8_encode_cp.
  repeat match goal with
         | |- context [if ?b then _ else _] => destruct b
         end; try discriminate; intros <-%Ok_inj; cbn [List.length]; lia.
Qed.

Lemma utf8_encode_length_bounds x : forall bs,
  utf8_encode x = Ok bs ->
  (List.length x <= List.length bs <= 4 * List.length x)%nat.
Proof.
  induction x as [|c t IH]; intros bs.
  - intros <-%Ok_inj. cbn. lia.
  - cbn [utf8_encode]. destruct (utf8_encode_cp c) as [b|] eqn:E; [|discriminate].
    cbn [rbind]. destruct (utf8_encode t) as [r|]; [|discriminate].
    intros <-%Ok_inj. specialize (IH r eq_refl).
    apply utf8_encode_cp_length in E. rewrite length_app. cbn [List.length]. lia.
Qed.

Lemma quoter_length_bounds bs :
  (List.length bs <= List.length (flat_map (quoter default_safe) bs)
   <= 3 * List.length bs)%nat.
Proof.
  induction bs as [|b t IH]; [cbn; lia|]. cbn [flat_map].
  rewrite length_app. unfold quoter at 1 3.
  destruct (is_safe default_safe b); cbn [List.length percent]; lia.
Qed.

(** The encoded term is at least as long as the term and at most twelve
    times as long: up to four bytes for a character, three characters for
    a byte. *)
Theorem quote_length x e :
  quote x = Ok e ->
  (List.length x <= List.length e <= 12 * List.length x)%nat.
Proof.
  intros Q. destruct (quote_encoded _ _ Q) as [bs E].
  rewrite (quote_bytewise _ _ E) in Q. apply Ok_inj in Q. subst e.
  pose proof (utf8_encode_length_bounds _ _ E).
  pose proof (quoter_length_bounds bs). lia.
Qed.

Lemma quote_length_witness :
  quote [0x1F600] = Ok (lit "%F0%9F%98%80")
  /\ (List.length [0x1F600%N] <= List.length (lit "%F0%9F%98%80")
      <= 12 * List.length [0x1F600%N])%nat.
Proof.
  split; [reflexivity|].
  exact (quote_length [0x1F600] (lit "%F0%9F%98%80") eq_refl).
Defined.

(** ** The parsed content *)

Lemma pystr_eqb_true a b : pystr_eqb a b = true <-> a = b.
Proof.
  unfold pystr_eqb. destruct (list_eq_dec N.eq_dec a b); split;
    congruence.
Qed.

Lemma pystr_eqb_refl a : pystr_eqb a a = true.
Proof. now apply pystr_eqb_true. Qed.

Lemma dict_get_set k k' v d :
  dict_get k (dict_set k' v d)
  = if pystr_eqb k k' then Some v else dict_get k d.
Proof.
  induction d as [|[k0 v0] t IH]; cbn [dict_set dict_get]; [reflexivity|].
  destruct (pystr_eqb k' k0) eqn:E; cbn [dict_get].
  - apply pystr_eqb_true in E. subst k0.
    destruct (pystr_eqb k k'); reflexivity.
  - rewrite IH. destruct (pystr_eqb k k0) eqn:E0; [|reflexivity].
    apply pystr_eqb_true in E0. subst k0.
    destruct (pystr_eqb k k') eqn:E1; [|reflexivity].
    apply pystr_eqb_true in E1. subst k'. rewrite pystr_eqb_refl in E.
    discriminate.
Qed.

Lemma dict_get_fold k pairs : forall d,
  dict_get k (fold_left (fun d kv => dict_set (fst kv) (snd kv) d) pairs d)
  = fold_left (fun found kv => if pystr_eqb k (fst kv) then Some (snd kv) else found)
              pairs (dict_get k d).
Proof.
  induction pairs as [|[k' v] t IH]; intros d; [reflexivity|].
  cbn [fold_left fst snd]. rewrite IH. now rewrite dict_get_set.
Qed.

Lemma dict_set_keys k v d :
  map fst (dict_set k v d)
  = if existsb (pystr_eqb k) (map fst d) then map fst d else map fst d ++ [k].
Proof.
  induction d as [|[k0 v0] t IH]; [reflexivity|].
  cbn [dict_set map fst existsb].
  destruct (pystr_eqb k k0); cbn [orb map fst]; [reflexivity|].
  rewrite IH. destruct (existsb (pystr_eqb k) (map fst t)); reflexivity.
Qed.

Lemma dict_set_nodup k v d :
  NoDup (map fst d) -> NoDup (map fst (dict_set k v d)).
Proof.
  intros H. rewrite dict_set_keys.
  destruct (existsb (pystr_eqb k) (map fst d)) eqn:E; [exact H|].
  apply NoDup_app; [exact H|repeat constructor; intros []|].
  intros x Hx [Ek|[]]. subst x.
  assert (existsb (pystr_eqb k) (map fst d) = true); [|congruence].
  apply existsb_exists. exists k. split; [exact Hx|apply pystr_eqb_refl].
Qed.

Lemma dict_fold_nodup pairs : forall d,
  NoDup (map fst d) ->
  NoDup (map fst (fold_left (fun d kv => dict_set (fst kv) (snd kv) d) pairs d)).
Proof.
  induction pairs as [|kv t IH]; intros d H; [exact H|].
  cbn [fold_left]. apply IH. now apply dict_set_nodup.
Qed.

(** The dict [json.loads] builds from the pairs of an object holds every
    key once, and looking a key up gives the value of its last pair: of
    two [angular] entries the later one is printed. *)
Theorem dict_of_pairs_last_wins pairs :
  NoDup (map fst (dict_of_pairs pairs))
  /\ forall k, dict_get k (dict_of_pairs pairs) = last_binding k pairs.
Proof.
  split.
  - apply dict_fold_nodup. constructor.
  - intros k. unfold dict_of_pairs, last_binding. now rewrite dict_get_fold.
Qed.

Lemma detect_encoding_text b :
  Forall text_byte b -> detect_encoding b = Utf8.
Proof.
  intros H. unfold detect_encoding, starts_with.
  destruct b as [|b0 [|b1 [|b2 [|b3 t]]]];
    repeat match goal with
           | F : Forall _ (_ :: _) |- _ => inversion F; clear F; subst
           end;
    unfold text_byte in *; cbn [strip_prefix orb];
    cmp_cases; reflexivity.
Qed.

Lemma text_byte_ascii b : Forall text_byte b -> Forall is_ascii b.
Proof.
  apply Forall_impl. unfold text_byte, is_ascii. intros; lia.
Qed.

Lemma json_loads_text lim rt content :
  Forall text_byte content -> json_loads lim rt content = loads_text lim content.
Proof.
  intros H. unfold json_loads. rewrite (detect_encoding_text _ H).
  cbn [bytes_decode].
  now rewrite (utf8_decode_ascii SurrogatePass _ (text_byte_ascii _ H)).
Qed.

(** Content made of ASCII bytes other than NUL is read as UTF-8 text,
    byte for character: what [json.loads] returns on it does not depend
    on the decoders the interpreter has. *)
Theorem text_content_utf8 lim rt content :
  Forall text_byte content ->
  json_loads lim rt content = loads_text lim content
  /\ forall rt', json_loads lim rt' content = json_loads lim rt content.
Proof.
  intros H. split; [now apply json_loads_text|].
  intros rt'. now rewrite !json_loads_text.
Qed.

Lemma text_content_utf8_witness :
  json_loads default_limits plain_runtime (lit "[1, 2]") = Ok (VList [VInt 1; VInt 2])
  /\ forall rt', json_loads default_limits rt' (lit "[1, 2]") = Ok (VList [VInt 1; VInt 2]).
Proof.
  assert (T : Forall text_byte (lit "[1, 2]")) by (repeat constructor).
  destruct (text_content_utf8 default_limits plain_runtime (lit "[1, 2]") T) as [E R].
  split; [reflexivity|]. intros rt'. now rewrite R.
Defined.

(** A UTF-8 byte order mark before ASCII content is dropped: the content
    is read as without it. *)
Theorem utf8_bom_ignored lim rt content :
  Forall text_byte content ->
  json_loads lim rt (0xEF :: 0xBB :: 0xBF :: content) = json_loads lim rt content.
Proof.
  intros H. rewrite (json_loads_text lim rt content H). unfold json_loads.
  change (detect_encoding (0xEF :: 0xBB :: 0xBF :: content)) with Utf8Sig.
  change (bytes_decode rt Utf8Sig (0xEF :: 0xBB :: 0xBF :: content))
    with (utf8_decode SurrogatePass content).
  now rewrite (utf8_decode_ascii SurrogatePass _ (text_byte_ascii _ H)).
Qed.

Lemma utf8_bom_ignored_witness :
  json_loads default_limits plain_runtime (0xEF :: 0xBB :: 0xBF :: example_content)
  = json_loads default_limits plain_runtime example_content.
Proof.
  apply utf8_bom_ignored. repeat constructor.
Defined.

(** Content that is empty or holds white space only is no JSON text:
    [json.loads] raises [JSONDecodeError] on it. *)
Theorem blank_content_rejected lim rt content :
  Forall (fun c => is_ws c = true) content ->
  json_loads lim rt content = Raise JSONDecodeError.
Proof.
  intros H. rewrite json_loads_text.
  - unfold loads_text, decode, decode_within.
    pose proof (skip_ws_blank content [] H) as E. rewrite app_nil_r in E.
    rewrite E. reflexivity.
  - eapply Forall_impl; [|exact H]. exact ws_text_byte.
Qed.

Lemma blank_content_rejected_witness :
  json_loads default_limits plain_runtime [] = Raise JSONDecodeError
  /\ json_loads default_limits plain_runtime [0x20; 0x0A; 0x09] = Raise JSONDecodeError.
Proof.
  split; apply blank_content_rejected; repeat constructor.
Defined.

(** White space before the JSON text changes nothing. *)
Theorem leading_blank_ignored lim rt w content :
  Forall (fun c => is_ws c = true) w ->
  Forall text_byte content ->
  json_loads lim rt (w ++ content) = json_loads lim rt content.
Proof.
  intros W C. rewrite !json_loads_text.
  - unfold loads_text, decode, decode_within.
    now rewrite (skip_ws_blank w content W).
  - exact C.
  - apply Forall_app. split; [|exact C].
    eapply Forall_impl; [|exact W]. exact ws_text_byte.
Qed.

Lemma leading_blank_ignored_witness :
  json_loads default_limits plain_runtime ([0x0A; 0x20] ++ example_content)
  = json_loads default_limits plain_runtime example_content.
Proof.
  apply leading_blank_ignored; repeat constructor.
Defined.

(** ** A version string is printed as it was written *)

Lemma scanstring_plain v rest :
  Forall plain_char v -> scanstring (v ++ 0x22 :: rest) = Scanned v rest.
Proof.
  induction 1 as [|c t [Hr [Hq Hb]] _ IH].
  - cbn [app scanstring]. reflexivity.
  - cbn [app]. cbn [scanstring].
    destruct (N.eqb_spec c 0x22); [contradiction|].
    destruct (N.eqb_spec c 0x5C); [contradiction|].
    destruct (N.ltb_spec c 0x20); [lia|].
    now rewrite IH.
Qed.

Lemma scan_once_string constants max_digits depth v rest :
  Forall plain_char v ->
  scan_once constants max_digits depth (0x22 :: v ++ 0x22 :: rest)
  = Scanned (VStr v) rest.
Proof.
  intros H. destruct depth; cbn [scan_once]; rewrite N.eqb_refl;
    now rewrite (scanstring_plain v rest H).
Qed.

(** An object with one entry, written [{"key": value}]. *)
Lemma JSONObject_single sc key body v rest :
  Forall plain_char key ->
  skip_ws body = body ->
  sc body = Scanned v (0x7D :: rest) ->
  JSONObject sc (0x22 :: key ++ 0x22 :: 0x3A :: 0x20 :: body)
  = Scanned (VDict [(key, v)]) rest.
Proof.
  intros K W B. unfold JSONObject.
  rewrite skip_ws_nonws by reflexivity.
  change (0x22 =? 0x7D) with false. change (0x22 =? 0x22) with true.
  cbn [object_pairs]. rewrite (scanstring_plain key _ K). cbn [then_scan].
  rewrite skip_ws_nonws by reflexivity.
  change (0x3A =? 0x3A) with true.
  change (skip_ws (0x20 :: body)) with (skip_ws body). rewrite W, B.
  cbn [then_scan]. rewrite skip_ws_nonws by reflexivity.
  change (0x7D =? 0x7D) with true. reflexivity.
Qed.

Lemma scan_once_object constants max_digits depth t :
  scan_once constants max_digits (S depth) (0x7B :: t)
  = JSONObject (scan_once constants max_digits depth) t.
Proof. reflexivity. Qed.

Lemma plain_lit_dependencies : Forall plain_char (lit "dependencies").
Proof. repeat constructor; try lia; discriminate. Qed.

Lemma plain_lit_angular : Forall plain_char (lit "angular").
Proof. repeat constructor; try lia; discriminate. Qed.

Lemma version_content_layout version w :
  version_content version ++ w
  = 0x7B :: 0x22 :: lit "dependencies" ++ 0x22 :: 0x3A :: 0x20
    :: (0x7B :: 0x22 :: lit "angular" ++ 0x22 :: 0x3A :: 0x20
        :: (0x22 :: version ++ 0x22 :: 0x7D :: 0x7D :: w)).
Proof.
  unfold version_content, json_string.
  change (lit "}}") with [0x7D; 0x7D].
  repeat rewrite <- app_assoc. reflexivity.
Qed.

(** Two containers are entered: the floor of the nesting limit is
    enough. *)
Lemma version_content_decode lim version w1 w2 :
  Forall plain_char version ->
  Forall (fun c => is_ws c = true) w1 ->
  Forall (fun c => is_ws c = true) w2 ->
  loads_text lim (w1 ++ version_content version ++ w2)
  = Ok (VDict [(lit "dependencies", VDict [(lit "angular", VStr version)])]).
Proof.
  intros H W1 W2. unfold loads_text, decode, decode_within, nesting_limit.
  rewrite (skip_ws_blank w1 _ W1), version_content_layout.
  rewrite skip_ws_nonws by reflexivity.
  change (2 + spare_depth lim)%nat with (S (S (spare_depth lim))).
  rewrite scan_once_object.
  rewrite (JSONObject_single _ (lit "dependencies") _
             (VDict [(lit "angular", VStr version)]) w2
             plain_lit_dependencies).
  - cbn [then_scan].
    pose proof (skip_ws_blank w2 [] W2) as E. rewrite app_nil_r in E.
    rewrite E. reflexivity.
  - now apply skip_ws_nonws.
  - rewrite scan_once_object.
    apply (JSONObject_single _ (lit "angular") _
             (VStr version) (0x7D :: w2) plain_lit_angular).
    + now apply skip_ws_nonws.
    + now apply scan_once_string.
Qed.

Lemma version_content_text version :
  Forall plain_char version -> Forall text_byte (version_content version).
Proof.
  intros H. unfold version_content, json_string.
  repeat (apply Forall_app; split);
    try (apply Forall_forall; intros c Hc; cbn in Hc; unfold text_byte;
         repeat (destruct Hc as [<-|Hc]; [lia|]); contradiction).
  eapply Forall_impl; [|exact H].
  unfold plain_char, text_byte. intros; lia.
Qed.

Lemma plain_writable version : Forall plain_char version -> writable version.
Proof.
  apply Forall_impl. intros c [R _]. apply scalar_ascii. lia.
Qed.

(** For every version written with plain characters (ASCII, no control
    character, quote or backslash), a record whose content is
    [{"dependencies": {"angular": "<version>"}}], with any white space
    before and after it (a final newline, say), and whose repository name,
    path and URL can be written to standard output, is printed with that
    very text on its fourth line, whatever the limits of the
    interpreter. *)
Theorem plain_version_printed lim rt g pre r version w1 w2 :
  g (sent_request (lit "angular")) = Ok (yield_all pre (Yield r Exhausted)) ->
  Forall (printable lim rt) pre ->
  decoded_content r = Ok (w1 ++ version_content version ++ w2) ->
  Forall plain_char version ->
  Forall (fun c => is_ws c = true) w1 ->
  Forall (fun c => is_ws c = true) w2 ->
  writable (full_name (repository r)) ->
  writable (path r) ->
  writable (html_url r) ->
  run lim rt g
  = (Ok tt,
     {| stdout := flat_map (report lim rt) pre
                  ++ unlines [ lit "Repository: " ++ full_name (repository r);
                               lit "File path: " ++ path r;
                               lit "URL: " ++ html_url r;
                               lit "Angular JS: " ++ version ];
        requests := [sent_request (lit "angular")] |}).
Proof.
  intros G P C H W1 W2 F1 F2 F3.
  assert (T : Forall text_byte (w1 ++ version_content version ++ w2)).
  { apply Forall_app. split; [|apply Forall_app; split].
    - eapply Forall_impl; [|exact W1]. exact ws_text_byte.
    - now apply version_content_text.
    - eapply Forall_impl; [|exact W2]. exact ws_text_byte. }
  assert (V : version_of lim rt r = Ok (VStr version)).
  { unfold version_of. rewrite C. cbn [rbind].
    rewrite (json_loads_text lim rt _ T).
    rewrite (version_content_decode lim _ _ _ H W1 W2). reflexivity. }
  assert (W : Forall writable (four_lines r (py_str rt (VStr version)))).
  { unfold four_lines. cbn [py_str].
    repeat (apply Forall_cons; [apply writable_app; [apply lit_writable|]|]);
      [assumption|assumption|assumption|now apply plain_writable|constructor]. }
  rewrite (run_prefix lim rt g pre _ G P). cbn [for_each]. unfold bind.
  rewrite (project_ok lim rt r _ _ V W). reflexivity.
Qed.

Lemma plain_version_printed_witness :
  let r := {| repository := {| full_name := lit "gothinkster/angularjs-realworld-example-app" |};
              path := lit "package.json";
              html_url := lit "https://example/package.json";
              decoded_content :=
                Ok ([] ++ version_content (lit "^1.5.0-rc.2") ++ [0x0A]) |} in
  let g : service := fun _ => Ok (Yield r Exhausted) in
  run default_limits plain_runtime g
  = (Ok tt,
     {| stdout := unlines [ lit "Repository: gothinkster/angularjs-realworld-example-app";
                            lit "File path: package.json";
                            lit "URL: https://example/package.json";
                            lit "Angular JS: ^1.5.0-rc.2" ];
        requests := [sent_request (lit "angular")] |}).
Proof.
  intros r g.
  apply (plain_version_printed default_limits plain_runtime g [] r
           (lit "^1.5.0-rc.2") [] [0x0A]).
  - reflexivity.
  - constructor.
  - reflexivity.
  - repeat constructor; try lia; discriminate.
  - constructor.
  - repeat constructor.
  - apply lit_writable.
  - apply lit_writable.
  - apply lit_writable.
Defined.

(** ** Valid JSON and parse errors *)


